(** * asyncawait: the concurrency-limiting mod and the async iterator protocol

    A shallow embedding of [src/mods/maxConcurrency.js] (the process-wide
    semaphore and the limiter mod built on it) and of the iterator protocol
    exercised by [test/async.iterable.thunk.ts].

    JavaScript numbers are modelled by the rationals [Q]: finite values
    with exact arithmetic, so neither NaN nor the infinities nor rounding.
    Objects live in a heap and are named by their location, so that
    aliasing between handles is visible. *)

From Stdlib Require Import QArith.
From stdpp Require Import gmap strings list.

Local Open Scope Q_scope.

(** ** JavaScript values *)

Abbreviation loc := positive.

(** A pipeline is an external object; the mod only ever calls its three
    methods, so a pipeline value is represented by its reference. *)
Abbreviation pipeline := positive.

Inductive val : Type :=
  | VUndefined
  | VNull
  | VBool (b : bool)
  | VNumber (n : Q)
  | VString (s : string)
  | VObject (l : loc)
  | VFunction (f : func)
with func : Type :=
  (** the closure [function (error, value) {...}] of lines 38-58, with the
      variables it captures *)
  | PlaceholderEnter (p : pipeline) (co : loc)
                     (protocol bodyFunc bodyThis bodyArgs : val)
  (** a function defined outside this module *)
  | Native (id : positive).

(** [!!v] *)
Definition truthy (v : val) : bool :=
  match v with
  | VUndefined | VNull => false
  | VBool b => b
  | VNumber n => negb (Qeq_bool n 0)
  | VString s => negb (String.eqb s "")
  | VObject _ | VFunction _ => true
  end.

(** [x < y] on numbers. *)
Definition Qlt_bool (x y : Q) : bool := negb (Qle_bool y x).

(** Thrown values. *)
Inductive exn : Type :=
  | Error (message : string)
  | TypeError (message : string)
  | Thrown (v : val).

(** ** The private state of the semaphore (lines 106-109) *)

(** The closure [function () {...}] of lines 40-57 handed to
    [enterSemaphore], with the variables it captures. *)
Record callback : Type := Callback {
  cb_pipeline : pipeline;
  cb_co : loc;
  cb_protocol : val;
  cb_bodyFunc : val;
  cb_bodyThis : val;
  cb_bodyArgs : val;
  cb_error : val;
  cb_value : val
}.

(** [_size], [_avail], [_queued]; [None] is [null]. *)
Record Semaphore : Type := mkSemaphore {
  _size : option Q;
  _avail : option Q;
  _queued : list callback
}.

(** The state at load time. *)
Definition initial : Semaphore :=
  {| _size := None; _avail := None; _queued := [] |}.

(** [maxConcurrency._reset] (lines 112-115). *)
Definition _reset (s : Semaphore) : Semaphore := initial.

(** Numeric conversion of a counter: [null] converts to [0]. *)
Definition ToNumber (x : option Q) : Q := default 0 x.

Definition set_avail (a : option Q) (s : Semaphore) : Semaphore :=
  {| _size := _size s; _avail := a; _queued := _queued s |}.

Definition set_queued (q : list callback) (s : Semaphore) : Semaphore :=
  {| _size := _size s; _avail := _avail s; _queued := q |}.

(** [semaphoreSize(n)] (lines 98-104); [n = None] is the call without
    argument. The first component is the value returned, [_size]. *)
Definition semaphoreSize (n : option Q) (s : Semaphore)
  : option Q * Semaphore :=
  match n with
  | Some q =>
      if Qeq_bool q 0 then (_size s, s)
      else (Some q,
            {| _size := Some q;
               _avail := Some (ToNumber (_avail s) + (q - ToNumber (_size s)));
               _queued := _queued s |})
  | None => (_size s, s)
  end.

(** ** Coroutines, the heap and the world *)

(** A coroutine object, with the four properties this module reads or
    writes; a property that is absent reads as [VUndefined]. *)
Record Coroutine : Type := mkCoroutine {
  enter : val;
  leave : val;
  context : val;
  inSemaphore : val
}.

#[global] Instance Coroutine_inhabited : Inhabited Coroutine :=
  populate (mkCoroutine VUndefined VUndefined VUndefined VUndefined).

Definition set_enter (v : val) (c : Coroutine) : Coroutine :=
  {| enter := v; leave := leave c; context := context c;
     inSemaphore := inSemaphore c |}.

Definition set_leave (v : val) (c : Coroutine) : Coroutine :=
  {| enter := enter c; leave := v; context := context c;
     inSemaphore := inSemaphore c |}.

Definition set_context (v : val) (c : Coroutine) : Coroutine :=
  {| enter := enter c; leave := leave c; context := v;
     inSemaphore := inSemaphore c |}.

Definition set_inSemaphore (v : val) (c : Coroutine) : Coroutine :=
  {| enter := enter c; leave := leave c; context := context c;
     inSemaphore := v |}.

(** Everything a call can read or change: the module's private semaphore,
    the coroutine objects, the context bags (plain objects used as maps
    from property names to values), and the state [E] of the code outside
    this module. *)
Record World (E : Type) : Type := mkWorld {
  sem : Semaphore;
  coros : gmap loc Coroutine;
  bags : gmap loc (gmap string val);
  ext : E
}.
Arguments mkWorld {E}.
Arguments sem {E}.
Arguments coros {E}.
Arguments bags {E}.
Arguments ext {E}.

Definition set_sem {E} (s : Semaphore) (w : World E) : World E :=
  {| sem := s; coros := coros w; bags := bags w; ext := ext w |}.

(** [l.prop = v], through the setter [f] of the property. *)
Definition update_coro {E} (l : loc) (f : Coroutine -> Coroutine)
  (w : World E) : World E :=
  {| sem := sem w; coros := <[l := f (coros w !!! l)]> (coros w);
     bags := bags w; ext := ext w |}.

(** How a call ends: it returns, throws, or the model ran out of fuel. A
    function without [return] has the result type [unit]. *)
Inductive outcome (E A : Type) : Type :=
  | Return (a : A) (w : World E)
  | Throw (e : exn) (w : World E)
  | OutOfFuel.
Arguments Return {E A}.
Arguments Throw {E A}.
Arguments OutOfFuel {E A}.

Definition bind {E A B} (m : outcome E A)
  (k : A -> World E -> outcome E B) : outcome E B :=
  match m with
  | Return a w => k a w
  | Throw e w => Throw e w
  | OutOfFuel => OutOfFuel
  end.

(** [h.context[k] = v] and [h.context[k]] for a coroutine handle [h]. When
    the context is not an object the assignment changes nothing. *)
Definition context_set {E} (h : loc) (k : string) (v : val)
  (w : World E) : World E :=
  match context (coros w !!! h) with
  | VObject b =>
      {| sem := sem w; coros := coros w;
         bags := <[b := <[k := v]> (bags w !!! b)]> (bags w); ext := ext w |}
  | _ => w
  end.

Definition context_get {E} (h : loc) (k : string) (w : World E) : val :=
  match context (coros w !!! h) with
  | VObject b => default VUndefined ((bags w !!! b) !! k)
  | _ => VUndefined
  end.

(** ** The semaphore (lines 77-95) *)

(** [invoke fn] is the call [fn()]. *)
Definition enterSemaphore {E} (invoke : callback -> World E -> outcome E unit)
  (fn : callback) (w : World E) : outcome E unit :=
  if Qlt_bool 0 (ToNumber (_avail (sem w))) then
    invoke fn
      (set_sem (set_avail (Some (ToNumber (_avail (sem w)) - 1)) (sem w)) w)
  else
    Return tt (set_sem (set_queued (_queued (sem w) ++ [fn]) (sem w)) w).

Definition leaveSemaphore {E} (invoke : callback -> World E -> outcome E unit)
  (w : World E) : outcome E unit :=
  match _queued (sem w) with
  | fn :: rest => invoke fn (set_sem (set_queued rest (sem w)) w)
  | [] =>
      Return tt
        (set_sem (set_avail (Some (ToNumber (_avail (sem w)) + 1)) (sem w)) w)
  end.

(** ** The limiter mod (lines 10-75) *)

(** Modelled from the spec: [_.isNumber] of [../util], which is not among
    the sources; the spec speaks of a capacity that is or is not a number. *)
Definition isNumber (v : val) : bool :=
  match v with VNumber _ => true | _ => false end.

(** [v < q] for a [v] already known to be a number (the only use, line 12,
    sits behind [!_.isNumber(value) ||]). *)
Definition lt_number (v : val) (q : Q) : bool :=
  match v with VNumber n => Qlt_bool n q | _ => false end.

(** [x !== null] for a counter. *)
Definition not_null (x : option Q) : bool :=
  match x with Some _ => true | None => false end.

(** The argument that line 20 passes on, a number by then. *)
Definition as_number (v : val) : option Q :=
  match v with VNumber n => Some n | _ => None end.

(** The two errors of lines 13 and 17; the spec calls them ValidationError
    and ConfigurationError. *)
Definition ValidationError : exn :=
  Error "maxConcurrency: please specify a positive numeric value".

Definition ConfigurationError : exn :=
  Error "maxConcurrency: mod cannot be applied multiple times".

(** What the mod function returns: the two methods of lines 26 and 63. The
    natural number bounds the depth of calls from one placeholder's [enter]
    into another's. *)
Record Pipeline (E : Type) : Type := mkPipeline {
  acquireCoro_of : val -> val -> val -> val -> World E -> outcome E loc;
  releaseCoro_of : nat -> val -> loc -> World E -> outcome E val
}.
Arguments mkPipeline {E}.
Arguments acquireCoro_of {E}.
Arguments releaseCoro_of {E}.

(** The code outside this module: the three methods of the pipeline a mod
    is applied to ([currentCoro] only reads the world), and the functions
    found in coroutines made elsewhere ([native id this args]). All of them
    may read and change the whole world. *)
Record Outside (E : Type) : Type := mkOutside {
  currentCoro : pipeline -> World E -> val;
  pipeline_acquireCoro :
    pipeline -> val -> val -> val -> val -> World E -> outcome E loc;
  pipeline_releaseCoro : pipeline -> val -> loc -> World E -> outcome E val;
  native : positive -> val -> list val -> World E -> outcome E val
}.
Arguments mkOutside {E}.
Arguments currentCoro {E}.
Arguments pipeline_acquireCoro {E}.
Arguments pipeline_releaseCoro {E}.
Arguments native {E}.

Section Mod.
Context {E : Type} (X : Outside E).

(** Lines 46-53: the placeholder [co] takes the methods of the real
    coroutine [c], which takes the placeholder's context and the mark. *)
Definition bindPlaceholder (co c : loc) (w : World E) : World E :=
  let w := update_coro co (set_enter (enter (coros w !!! c))) w in
  let w := update_coro co (set_leave (leave (coros w !!! c))) w in
  let w := update_coro c (set_context (context (coros w !!! co))) w in
  update_coro c (set_inSemaphore (VBool true)) w.

(** Lines 41-56, the body of the callback, over the way [call] of calling
    a function value. *)
Definition callback_body
  (call : val -> val -> list val -> World E -> outcome E val)
  (fn : callback) (w : World E) : outcome E unit :=
  bind (pipeline_acquireCoro X (cb_pipeline fn) (cb_protocol fn)
          (cb_bodyFunc fn) (cb_bodyThis fn) (cb_bodyArgs fn) w)
    (fun c w1 =>
       let w2 := bindPlaceholder (cb_co fn) c w1 in
       bind (call (enter (coros w2 !!! cb_co fn)) (VObject (cb_co fn))
               [cb_error fn; cb_value fn] w2)
         (fun _ w3 => Return tt w3)).

(** [f.call(this, ...args)]. The placeholder's [enter] (lines 38-58)
    enters the semaphore with its callback. *)
Fixpoint call (fuel : nat) (f this : val) (args : list val)
  (w : World E) : outcome E val :=
  match f with
  | VFunction (Native id) => native X id this args w
  | VFunction (PlaceholderEnter p co protocol bodyFunc bodyThis bodyArgs) =>
      match fuel with
      | O => OutOfFuel
      | S fuel' =>
          bind (enterSemaphore (callback_body (call fuel'))
                  (Callback p co protocol bodyFunc bodyThis bodyArgs
                     (nth 0 args VUndefined) (nth 1 args VUndefined)) w)
            (fun _ w' => Return VUndefined w')
      end
  | _ => Throw (TypeError "not a function") w
  end.

(** [fn()] for a callback of the semaphore. *)
Definition invoke (fuel : nat) (fn : callback) (w : World E)
  : outcome E unit :=
  callback_body (call fuel) fn w.

(** Lines 26-61. *)
Definition acquireCoro (p : pipeline)
  (protocol bodyFunc bodyThis bodyArgs : val) (w : World E)
  : outcome E loc :=
  if truthy (currentCoro X p w) then
    pipeline_acquireCoro X p protocol bodyFunc bodyThis bodyArgs w
  else
    let bag := fresh (dom (bags w)) in
    let co := fresh (dom (coros w)) in
    Return co
      {| sem := sem w;
         coros :=
           <[co := {| inSemaphore := VBool true;
                      context := VObject bag;
                      enter := VFunction (PlaceholderEnter p co protocol
                                            bodyFunc bodyThis bodyArgs);
                      leave := VUndefined |}]> (coros w);
         bags := <[bag := ∅]> (bags w);
         ext := ext w |}.

(** Lines 63-72. *)
Definition releaseCoro (fuel : nat) (p : pipeline) (protocol : val)
  (co : loc) (w : World E) : outcome E val :=
  if truthy (inSemaphore (coros w !!! co)) then
    let w1 := update_coro co (set_inSemaphore (VBool false)) w in
    bind (leaveSemaphore (invoke fuel) w1)
      (fun _ w2 => pipeline_releaseCoro X p protocol co w2)
  else pipeline_releaseCoro X p protocol co w.

(** Lines 23-74, the mod function. *)
Definition mod_function (p : pipeline) : Pipeline E :=
  {| acquireCoro_of := acquireCoro p;
     releaseCoro_of := fun fuel => releaseCoro fuel p |}.

(** Lines 10-22. *)
Definition maxConcurrency (value : val) (w : World E)
  : outcome E (pipeline -> Pipeline E) :=
  if negb (isNumber value) || lt_number value 1 then
    Throw ValidationError w
  else if not_null (fst (semaphoreSize None (sem w))) then
    Throw ConfigurationError w
  else
    Return mod_function
      (set_sem (snd (semaphoreSize (as_number value) (sem w))) w).

End Mod.

(** ** A base pipeline to run the mod on

    A minimal substrate: every coroutine it makes has [enter] and [leave]
    functions that only record that they were called. It serves to
    evaluate the mod on concrete worlds. *)
Module Base.

Inductive event : Type :=
  | Acquired (p : pipeline) (c : loc) (bodyFunc : val)
  | Released (p : pipeline) (co : loc)
  | Called (id : positive) (this : val) (args : list val).

(** The coroutine now running ([VNull] at top level) and the calls
    received so far, oldest first. *)
Record state : Type := mkState {
  current : val;
  log : list event
}.

Definition record (e : event) (w : World state) : World state :=
  {| sem := sem w; coros := coros w; bags := bags w;
     ext := {| current := current (ext w); log := log (ext w) ++ [e] |} |}.

Definition currentCoro (p : pipeline) (w : World state) : val :=
  current (ext w).

Definition acquireCoro (p : pipeline)
  (protocol bodyFunc bodyThis bodyArgs : val) (w : World state)
  : outcome state loc :=
  let c := fresh (dom (coros w)) in
  Return c
    (record (Acquired p c bodyFunc)
       {| sem := sem w;
          coros := <[c := {| enter := VFunction (Native 1);
                             leave := VFunction (Native 2);
                             context := VUndefined;
                             inSemaphore := VUndefined |}]> (coros w);
          bags := bags w; ext := ext w |}).

Definition releaseCoro (p : pipeline) (protocol : val) (co : loc)
  (w : World state) : outcome state val :=
  Return VUndefined (record (Released p co) w).

Definition native (id : positive) (this : val) (args : list val)
  (w : World state) : outcome state val :=
  Return VUndefined (record (Called id this args) w).

Definition outside : Outside state :=
  mkOutside currentCoro acquireCoro releaseCoro native.

(** The world of a program that has just loaded the module. *)
Definition start : World state :=
  {| sem := initial; coros := ∅; bags := ∅;
     ext := {| current := VNull; log := [] |} |}.

(** The same with [maxConcurrency(n)] applied. *)
Definition started (n : Q) : World state :=
  set_sem (snd (semaphoreSize (Some n) initial)) start.

(** The same while the coroutine [c] runs. *)
Definition inside (c : loc) (w : World state) : World state :=
  {| sem := sem w; coros := coros w; bags := bags w;
     ext := {| current := VObject c; log := log (ext w) |} |}.

End Base.

(** ** Two top-level calls on one slot

    The first testable property of the spec, on the base pipeline: with
    [maxConcurrency(1)] applied, a program starts two calls at top level
    and then releases the first. *)
Module Scenario.

(** [co = pipeline.acquireCoro(...); co.enter(null, undefined)] on the
    limited pipeline. *)
Definition start_call (bodyFunc : val) (w : World Base.state)
  : outcome Base.state loc :=
  bind (acquireCoro Base.outside 7 VNull bodyFunc VNull VNull w)
    (fun co w1 =>
       bind (call Base.outside 2 (enter (coros w1 !!! co)) (VObject co)
               [VNull; VUndefined] w1)
         (fun _ w2 => Return co w2)).

Definition two_calls : outcome Base.state (loc * loc) :=
  bind (start_call (VString "first") (Base.started 1))
    (fun a w1 =>
       bind (start_call (VString "second") w1)
         (fun b w2 => Return (a, b) w2)).

Definition then_release : outcome Base.state val :=
  bind two_calls
    (fun ab w => releaseCoro Base.outside 2 7 VNull (fst ab) w).

(** A placeholder made at top level, with a property attached to its
    context before its [enter] is called ... *)
Definition with_placeholder : World Base.state :=
  match acquireCoro Base.outside 7 VNull (VString "body") VNull VNull
          (Base.started 1) with
  | Return co w => context_set co "user" (VNumber 42) w
  | _ => Base.started 1
  end.

(** ... and the world in which its callback runs, the slot taken. *)
Definition slot_taken : World Base.state :=
  set_sem (set_avail (Some (1 - 1)) (sem with_placeholder)) with_placeholder.

Definition log_of {A} (o : outcome Base.state A) : list Base.event :=
  match o with
  | Return _ w | Throw _ w => Base.log (ext w)
  | OutOfFuel => []
  end.

Definition sem_of {A} (o : outcome Base.state A) : option Semaphore :=
  match o with
  | Return _ w | Throw _ w => Some (sem w)
  | OutOfFuel => None
  end.

End Scenario.

(** ** Callbacks that only leave a note

    To observe the order in which the semaphore invokes callbacks, a world
    whose outside state is the list of the callbacks invoked so far. *)
Module Noting.

Definition noting (fn : callback) (w : World (list callback))
  : outcome (list callback) unit :=
  Return tt
    {| sem := sem w; coros := coros w; bags := bags w; ext := ext w ++ [fn] |}.

(** [enterSemaphore(f)] for each [f] of [fs], in order. *)
Fixpoint enters (fs : list callback) (w : World (list callback))
  : outcome (list callback) unit :=
  match fs with
  | [] => Return tt w
  | f :: fs' => bind (enterSemaphore noting f w) (fun _ w' => enters fs' w')
  end.

(** [n] times [leaveSemaphore()]. *)
Fixpoint leaves (n : nat) (w : World (list callback))
  : outcome (list callback) unit :=
  match n with
  | O => Return tt w
  | S n' => bind (leaveSemaphore noting w) (fun _ w' => leaves n' w')
  end.

(** One callback waits on a semaphore of size one. *)
Definition waiting : World (list callback) :=
  {| sem := {| _size := Some 1; _avail := Some 0;
               _queued := [Callback 1 1 VNull VNull VNull VNull VNull VNull] |};
     coros := ∅; bags := ∅; ext := [] |}.

(** A size lowered from two to one with both slots in use. *)
Definition overdrawn : World (list callback) :=
  {| sem := {| _size := Some 1; _avail := Some (-1); _queued := [] |};
     coros := ∅; bags := ∅; ext := [] |}.

End Noting.

(** ** Predicates on the semaphore and on outcomes *)

(** The invariant of the data model: callbacks wait only when no slot is
    free. *)
Definition Inv (s : Semaphore) : Prop :=
  _queued s <> [] -> ToNumber (_avail s) == 0.

(** A whole number of slots is available. *)
Definition whole (s : Semaphore) : Prop :=
  exists k : nat, ToNumber (_avail s) == inject_Z (Z.of_nat k).

(** The semaphore satisfies [P] when the call ends. *)
Definition ends_in {E A} (P : Semaphore -> Prop) (o : outcome E A) : Prop :=
  match o with
  | Return _ w | Throw _ w => P (sem w)
  | OutOfFuel => True
  end.

(** ** The async iterator protocol

    [async.iterable.thunk] itself is not among the sources; its test
    [test/async.iterable.thunk.ts] is. *)
Module Iterable.

(** How a body ends. *)
Inductive completion : Type :=
  | Returns (r : val)
  | Raises (e : exn).

(** A body: the values it passes to [yield_], in order, and its end. *)
Record body : Type := mkBody {
  yields : list val;
  ending : completion
}.

(** The body [foo] of the test (lines 12-19), called with [count] and no
    [accum]. *)
Definition foo (count : Z) : body :=
  if ((count <? 1) || (9 <? count))%Z then
    {| yields := []; ending := Raises (Error "out of range") |}
  else
    {| yields := (fun i => VNumber (inject_Z (111 * i))) <$> seqZ 1 count;
       ending := Returns (VString "done") |}.

Inductive status : Type := NotStarted | Suspended | Done | Failed.

Inductive error : Type :=
  | IterationExhaustedError
  | BodyError (e : exn).

(** [{done, value}] *)
Record IterResult : Type := mkIterResult {
  done : bool;
  value : val
}.

(** What reaches a completion callback: [(error, result)], with [None]
    for [null] in the first place and for [undefined] in the second. *)
Definition delivery : Type := option error * option IterResult.

(** Modelled from the spec: the iterator that [async.iterable.thunk]
    makes over a body (section 4.3): its status, and what the suspended
    body has yet to do. *)
Record AsyncIterator : Type := mkAsyncIterator {
  state : status;
  pending : list val;
  finish : completion
}.

(** Modelled from the spec: the wrapper of section 6 returns the iterator
    synchronously, with the body not started. *)
Definition iterable (b : body) : AsyncIterator :=
  {| state := NotStarted; pending := yields b; finish := ending b |}.

(** Modelled from the spec: one resume step of section 4.3, run by
    invoking the thunk that [next()] returns: the body runs up to its
    next yield, return or throw and the outcome goes to the completion
    callback; on a finished iteration the callback receives
    IterationExhaustedError. *)
Definition next (it : AsyncIterator) : AsyncIterator * delivery :=
  match state it with
  | Done | Failed => (it, (Some IterationExhaustedError, None))
  | NotStarted | Suspended =>
      match pending it with
      | v :: vs =>
          ({| state := Suspended; pending := vs; finish := finish it |},
           (None, Some {| done := false; value := v |}))
      | [] =>
          match finish it with
          | Returns r =>
              ({| state := Done; pending := []; finish := finish it |},
               (None, Some {| done := true; value := r |}))
          | Raises e =>
              ({| state := Failed; pending := []; finish := finish it |},
               (Some (BodyError e), None))
          end
      end
  end.

(** [n] calls of [next()], each thunk invoked and awaited before the
    following call, as the test does; the deliveries in order. *)
Fixpoint drive (n : nat) (it : AsyncIterator) : list delivery :=
  match n with
  | O => []
  | S n' => let r := next it in snd r :: drive n' (fst r)
  end.

(** The three kinds of delivery. *)
Definition yielded (v : val) : delivery :=
  (None, Some {| done := false; value := v |}).

Definition returned (r : val) : delivery :=
  (None, Some {| done := true; value := r |}).

Definition exhausted : delivery := (Some IterationExhaustedError, None).

End Iterable.

(** ** Sequences of semaphore operations

    A program, seen from the semaphore, is a sequence of calls
    [enterSemaphore(fn)] and [leaveSemaphore()]; the callbacks leave a note
    and return. *)
Module Ops.

Inductive op : Type :=
  | Enter (fn : callback)
  | Leave.

Fixpoint run (ops : list op) (w : World (list callback))
  : outcome (list callback) unit :=
  match ops with
  | [] => Return tt w
  | Enter fn :: rest =>
      bind (enterSemaphore Noting.noting fn w) (fun _ w' => run rest w')
  | Leave :: rest =>
      bind (leaveSemaphore Noting.noting w) (fun _ w' => run rest w')
  end.

(** The callbacks that entered, in order, and the number of leaves. *)
Fixpoint entered (ops : list op) : list callback :=
  match ops with
  | [] => []
  | Enter fn :: rest => fn :: entered rest
  | Leave :: rest => entered rest
  end.

Fixpoint left (ops : list op) : nat :=
  match ops with
  | [] => O
  | Enter _ :: rest => left rest
  | Leave :: rest => S (left rest)
  end.

(** The world once line 20 has set the size to [n] in a fresh process,
    no callback invoked yet. *)
Definition limited (n : Q) : World (list callback) :=
  {| sem := snd (semaphoreSize (Some n) initial);
     coros := ∅; bags := ∅; ext := [] |}.

End Ops.

(** ** Inner pipelines that go wrong *)
Module Faulty.

(** An inner pipeline whose [acquireCoro] throws. *)
Definition throwing_acquireCoro (p : pipeline)
  (protocol bodyFunc bodyThis bodyArgs : val) (w : World Base.state)
  : outcome Base.state loc :=
  Throw (Error "out of fibers") w.

Definition throwing : Outside Base.state :=
  mkOutside Base.currentCoro throwing_acquireCoro Base.releaseCoro Base.native.

(** An inner pipeline whose coroutines have no [enter]. *)
Definition bare_acquireCoro (p : pipeline)
  (protocol bodyFunc bodyThis bodyArgs : val) (w : World Base.state)
  : outcome Base.state loc :=
  let c := fresh (dom (coros w)) in
  Return c
    {| sem := sem w;
       coros := <[c := mkCoroutine VUndefined VUndefined VUndefined
                         VUndefined]> (coros w);
       bags := bags w; ext := ext w |}.

Definition bare : Outside Base.state :=
  mkOutside Base.currentCoro bare_acquireCoro Base.releaseCoro Base.native.

End Faulty.

(** The two parts of the invariant together. *)
Definition Good (s : Semaphore) : Prop := Inv s /\ whole s.

(** ** Worlds on the way through the scenario *)
Module Bound.

(** The placeholder of [Scenario.with_placeholder] has taken the slot and
    the base pipeline has made its real coroutine. *)
Definition real_acquired : World Base.state :=
  match Base.acquireCoro 7 VNull (VString "body") VNull VNull
          Scenario.slot_taken with
  | Return _ w => w
  | _ => Scenario.slot_taken
  end.

(** The placeholder of that call, bound, has then been released. *)
Definition first_released : World Base.state :=
  match releaseCoro Base.outside 1 7 VNull 1
          (bindPlaceholder 1 2 real_acquired) with
  | Return _ w => w
  | _ => real_acquired
  end.

(** Two calls started on one slot: the first runs, the second waits. *)
Definition two_started : World Base.state :=
  match Scenario.two_calls with
  | Return _ w => w
  | _ => Base.start
  end.

(** The first is being released: its mark is cleared, the waiting
    callback is off the queue ... *)
Definition handing_over : World Base.state :=
  set_sem (set_queued [] (sem two_started))
    (update_coro 1 (set_inSemaphore (VBool false)) two_started).

(** ... and the base pipeline has made the real coroutine of the second. *)
Definition second_acquired : World Base.state :=
  match Base.acquireCoro 7 VNull (VString "second") VNull VNull
          handing_over with
  | Return _ w => w
  | _ => handing_over
  end.

End Bound.

(** * Properties *)

Lemma Qlt_bool_iff x y : Qlt_bool x y = true <-> x < y.
Proof.
  unfold Qlt_bool. rewrite negb_true_iff, <- not_true_iff_false, Qle_bool_iff.
  split; [apply Qnot_le_lt | apply Qlt_not_le].
Qed.

Lemma Qlt_bool_false x y : Qlt_bool x y = false <-> y <= x.
Proof.
  unfold Qlt_bool. rewrite negb_false_iff. apply Qle_bool_iff.
Qed.

(** ** The semaphore *)

Section Semaphore.
Context {E : Type} (invoke : callback -> World E -> outcome E unit).

Lemma enterSemaphore_slot fn (w : World E) :
  0 < ToNumber (_avail (sem w)) ->
  enterSemaphore invoke fn w =
    invoke fn
      (set_sem {| _size := _size (sem w);
                  _avail := Some (ToNumber (_avail (sem w)) - 1);
                  _queued := _queued (sem w) |} w).
Proof.
  intros H. unfold enterSemaphore.
  apply Qlt_bool_iff in H. now rewrite H.
Qed.

Lemma enterSemaphore_full fn (w : World E) :
  ~ 0 < ToNumber (_avail (sem w)) ->
  enterSemaphore invoke fn w =
    Return tt
      (set_sem {| _size := _size (sem w); _avail := _avail (sem w);
                  _queued := _queued (sem w) ++ [fn] |} w).
Proof.
  intros H. unfold enterSemaphore.
  destruct (Qlt_bool 0 (ToNumber (_avail (sem w)))) eqn:Hlt; [|reflexivity].
  apply Qlt_bool_iff in Hlt. contradiction.
Qed.

Lemma leaveSemaphore_handoff oldest rest (w : World E) :
  _queued (sem w) = oldest :: rest ->
  leaveSemaphore invoke w =
    invoke oldest
      (set_sem {| _size := _size (sem w); _avail := _avail (sem w);
                  _queued := rest |} w).
Proof. intros H. unfold leaveSemaphore. now rewrite H. Qed.

Lemma leaveSemaphore_free (w : World E) :
  _queued (sem w) = [] ->
  leaveSemaphore invoke w =
    Return tt
      (set_sem {| _size := _size (sem w);
                  _avail := Some (ToNumber (_avail (sem w)) + 1);
                  _queued := [] |} w).
Proof.
  intros H. unfold leaveSemaphore. rewrite H.
  unfold set_avail. now rewrite H.
Qed.

(** C1. A call [enterSemaphore(fn)] with [_avail > 0] decrements [_avail]
    and calls [fn()] before it returns, the queue untouched; otherwise it
    appends [fn] to the queue and returns, [_avail] untouched. A call
    [leaveSemaphore()] with a non-empty queue removes its oldest callback
    and calls it before it returns, [_avail] untouched; with an empty queue
    it adds one to [_avail] and returns. *)
Theorem semaphore_enter_leave (fn : callback) (w : World E) :
  (0 < ToNumber (_avail (sem w)) ->
     enterSemaphore invoke fn w =
       invoke fn
         (set_sem {| _size := _size (sem w);
                     _avail := Some (ToNumber (_avail (sem w)) - 1);
                     _queued := _queued (sem w) |} w))
  /\ (~ 0 < ToNumber (_avail (sem w)) ->
     enterSemaphore invoke fn w =
       Return tt
         (set_sem {| _size := _size (sem w); _avail := _avail (sem w);
                     _queued := _queued (sem w) ++ [fn] |} w))
  /\ (forall oldest rest, _queued (sem w) = oldest :: rest ->
     leaveSemaphore invoke w =
       invoke oldest
         (set_sem {| _size := _size (sem w); _avail := _avail (sem w);
                     _queued := rest |} w))
  /\ (_queued (sem w) = [] ->
     leaveSemaphore invoke w =
       Return tt
         (set_sem {| _size := _size (sem w);
                     _avail := Some (ToNumber (_avail (sem w)) + 1);
                     _queued := [] |} w)).
Proof.
  split; [apply enterSemaphore_slot|].
  split; [apply enterSemaphore_full|].
  split; [intros oldest rest; apply leaveSemaphore_handoff|].
  apply leaveSemaphore_free.
Qed.

(** C6, as the code has it. From a state that satisfies the invariant, and
    with callbacks that keep it: [leaveSemaphore] keeps it;
    [enterSemaphore] keeps it when [_avail] is not negative;
    [semaphoreSize] keeps it when no callback is queued. *)
Theorem invariant_kept (w : World E) :
  Inv (sem w) ->
  (forall fn w0, Inv (sem w0) -> ends_in Inv (invoke fn w0)) ->
  (forall fn, 0 <= ToNumber (_avail (sem w)) ->
     ends_in Inv (enterSemaphore invoke fn w))
  /\ ends_in Inv (leaveSemaphore invoke w)
  /\ (forall n, _queued (sem w) = [] -> Inv (snd (semaphoreSize n (sem w)))).
Proof.
  intros HI Hcb. split; [|split].
  - intros fn Hnn. unfold enterSemaphore.
    destruct (Qlt_bool 0 (ToNumber (_avail (sem w)))) eqn:Hlt.
    + apply Hcb. unfold Inv; simpl. intros Hq.
      apply Qlt_bool_iff in Hlt. apply HI in Hq.
      rewrite Hq in Hlt. exfalso. revert Hlt. apply Qlt_irrefl.
    + simpl. intros _. simpl.
      apply Qlt_bool_false in Hlt. now apply Qle_antisym.
  - unfold leaveSemaphore.
    destruct (_queued (sem w)) as [|f q] eqn:Hq.
    + simpl. intros Hne. now elim Hne.
    + apply Hcb. unfold Inv; simpl. intros _. apply HI. congruence.
  - intros n Hq. unfold semaphoreSize, Inv.
    destruct n as [q|]; [destruct (Qeq_bool q 0)|]; simpl;
      rewrite Hq; congruence.
Qed.

(** With a whole number of slots available, and callbacks that keep it so,
    [_avail] stays a whole number -- and so is never negative -- through
    [enterSemaphore] and [leaveSemaphore]. *)
Lemma whole_kept (w : World E) :
  whole (sem w) ->
  (forall fn w0, whole (sem w0) -> ends_in whole (invoke fn w0)) ->
  (forall fn, ends_in whole (enterSemaphore invoke fn w))
  /\ ends_in whole (leaveSemaphore invoke w).
Proof.
  intros [k Hk] Hcb. split.
  - intros fn. unfold enterSemaphore.
    destruct (Qlt_bool 0 (ToNumber (_avail (sem w)))) eqn:Hlt.
    + apply Hcb. apply Qlt_bool_iff in Hlt. rewrite Hk in Hlt.
      destruct k as [|k].
      * exfalso. revert Hlt. apply Qlt_irrefl.
      * exists k. simpl. rewrite Hk.
        rewrite Nat2Z.inj_succ. unfold Z.succ. rewrite inject_Z_plus.
        unfold Qeq; simpl. lia.
    + now exists k.
  - unfold leaveSemaphore. destruct (_queued (sem w)).
    + exists (S k). simpl. rewrite Hk.
      rewrite Nat2Z.inj_succ. unfold Z.succ. rewrite inject_Z_plus. reflexivity.
    + apply Hcb. now exists k.
Qed.

End Semaphore.

Lemma whole_not_negative s : whole s -> 0 <= ToNumber (_avail s).
Proof.
  intros [k Hk]. rewrite Hk. unfold Qle; simpl. lia.
Qed.

Lemma noting_keeps (P : Semaphore -> Prop) fn w :
  P (sem w) -> ends_in P (Noting.noting fn w).
Proof. auto. Qed.

Lemma invariant_kept_witness :
  Inv (sem Noting.waiting)
  /\ (forall fn w0, Inv (sem w0) -> ends_in Inv (Noting.noting fn w0))
  /\ (forall fn, 0 <= ToNumber (_avail (sem Noting.waiting)) ->
        ends_in Inv (enterSemaphore Noting.noting fn Noting.waiting))
  /\ ends_in Inv (leaveSemaphore Noting.noting Noting.waiting)
  /\ (forall n, _queued (sem Noting.waiting) = [] ->
        Inv (snd (semaphoreSize n (sem Noting.waiting)))).
Proof.
  assert (H : Inv (sem Noting.waiting)) by (intros _; reflexivity).
  split; [exact H|]. split; [exact (noting_keeps Inv)|].
  exact (invariant_kept Noting.noting Noting.waiting H (noting_keeps Inv)).
Defined.

(** C6 as stated fails: raising the size while a callback waits leaves it
    waiting next to a free slot. *)
Lemma resize_breaks_invariant :
  Inv (sem Noting.waiting)
  /\ ~ Inv (snd (semaphoreSize (Some 2) (sem Noting.waiting))).
Proof.
  split; [intros _; reflexivity|].
  intros H. assert (Hq : 1 == 0) by (apply H; discriminate).
  discriminate Hq.
Qed.

(** So does entering once [_avail] has gone negative, as after a size
    lowered below the number of slots in use. *)
Lemma enter_breaks_invariant_below_zero :
  Inv (sem Noting.overdrawn)
  /\ ~ ends_in Inv
         (enterSemaphore Noting.noting
            (Callback 1 1 VNull VNull VNull VNull VNull VNull)
            Noting.overdrawn).
Proof.
  split; [intros Hq; now elim Hq|].
  intros H. assert (Hq : -1 == 0) by (apply H; discriminate).
  discriminate Hq.
Qed.

(** *** First in, first out *)

Lemma enters_full fs (w : World (list callback)) :
  ~ 0 < ToNumber (_avail (sem w)) ->
  Noting.enters fs w
  = Return tt (set_sem (set_queued (_queued (sem w) ++ fs) (sem w)) w).
Proof.
  revert w. induction fs as [|f fs IH]; intros w H; simpl.
  - rewrite app_nil_r. now destruct w as [[] ? ? ?].
  - rewrite enterSemaphore_full by assumption. simpl.
    rewrite IH by assumption. simpl. unfold set_sem, set_queued; simpl.
    now rewrite <- app_assoc.
Qed.

Lemma leaves_queue n (w : World (list callback)) :
  (n <= length (_queued (sem w)))%nat ->
  Noting.leaves n w
  = Return tt
      {| sem := set_queued (drop n (_queued (sem w))) (sem w);
         coros := coros w; bags := bags w;
         ext := ext w ++ take n (_queued (sem w)) |}.
Proof.
  revert w. induction n as [|n IH]; intros w Hn.
  - simpl. rewrite app_nil_r. now destruct w as [[] ? ? ?].
  - destruct w as [[sz av q] co ba ex]. simpl in *.
    destruct q as [|f q]; simpl in *; [lia|].
    unfold leaveSemaphore. simpl. rewrite IH by (simpl; lia). simpl.
    unfold set_queued; simpl. now rewrite <- app_assoc.
Qed.

(** Callbacks that entered while no slot was free are invoked by the
    following [leaveSemaphore()] calls in the order of their arrival,
    after those already waiting, and [_avail] never moves. *)
Lemma fifo_handoff fs (w : World (list callback)) :
  ~ 0 < ToNumber (_avail (sem w)) ->
  bind (Noting.enters fs w)
    (fun _ w' => Noting.leaves (length (_queued (sem w) ++ fs)) w')
  = Return tt
      {| sem := set_queued [] (sem w); coros := coros w; bags := bags w;
         ext := ext w ++ _queued (sem w) ++ fs |}.
Proof.
  intros H. rewrite enters_full by assumption. simpl.
  rewrite leaves_queue by reflexivity. simpl.
  now rewrite firstn_all, drop_all.
Qed.

(** ** The factory *)

Lemma size_stable {E} (invoke : callback -> World E -> outcome E unit)
  fn (w : World E) :
  (forall g w0, _size (sem w0) = _size (sem w) ->
     ends_in (fun s => _size s = _size (sem w)) (invoke g w0)) ->
  ends_in (fun s => _size s = _size (sem w)) (enterSemaphore invoke fn w)
  /\ ends_in (fun s => _size s = _size (sem w)) (leaveSemaphore invoke w).
Proof.
  intros Hcb. unfold enterSemaphore, leaveSemaphore.
  destruct (Qlt_bool 0 (ToNumber (_avail (sem w)))), (_queued (sem w));
    split; try apply Hcb; reflexivity.
Qed.

(** C8 as stated fails: one half is a number and is positive, and the
    factory rejects it, on a first application too. *)
Lemma positive_half_rejected :
  isNumber (VNumber (1 # 2)) = true /\ 0 < 1 # 2
  /\ sem Base.start = initial
  /\ maxConcurrency Base.outside (VNumber (1 # 2)) Base.start
     = Throw ValidationError Base.start.
Proof. repeat split. Qed.

(** C8, as the code has it. The factory throws the error of line 13
    exactly when its argument is not a number or is a number below one;
    applied for the first time to a number that is at least one, it
    returns the mod function. *)
Theorem maxConcurrency_validates {E} (X : Outside E) (v : val) (w : World E) :
  (maxConcurrency X v w = Throw ValidationError w <->
     isNumber v = false \/ exists n, v = VNumber n /\ n < 1)
  /\ (forall n, v = VNumber n -> 1 <= n -> _size (sem w) = None ->
        exists w', maxConcurrency X v w = Return (mod_function X) w').
Proof.
  split; [split|].
  - intros H. destruct (isNumber v) eqn:Hn; [right|now left].
    destruct v; try discriminate Hn.
    exists n. split; [reflexivity|].
    unfold maxConcurrency in H. simpl in H.
    destruct (Qlt_bool n 1) eqn:Hlt; [now apply Qlt_bool_iff|].
    destruct (not_null _); discriminate H.
  - intros [Hn | (n & -> & Hlt)]; unfold maxConcurrency.
    + now rewrite Hn.
    + simpl. apply Qlt_bool_iff in Hlt. now rewrite Hlt.
  - intros n -> Hle Hsz. unfold maxConcurrency. simpl.
    apply Qlt_bool_false in Hle. rewrite Hle, Hsz. simpl. eauto.
Qed.

(** C9. The first application, with a valid capacity, returns the mod
    function and sets the size, all of it available; from then on, whatever
    the semaphore went through, an application with a valid capacity throws
    the error of line 17 and changes nothing. *)
Theorem maxConcurrency_once {E} (X : Outside E) (n : Q) (w : World E) :
  1 <= n ->
  sem w = initial ->
  exists w1,
    maxConcurrency X (VNumber n) w = Return (mod_function X) w1
    /\ _size (sem w1) = Some n
    /\ ToNumber (_avail (sem w1)) == n
    /\ _queued (sem w1) = []
    /\ forall m w2, 1 <= m -> _size (sem w2) = _size (sem w1) ->
         maxConcurrency X (VNumber m) w2 = Throw ConfigurationError w2.
Proof.
  intros Hle Hs.
  assert (Hn0 : Qeq_bool n 0 = false).
  { apply not_true_iff_false. intros H0. apply Qeq_bool_iff in H0.
    rewrite H0 in Hle. unfold Qle in Hle. simpl in Hle. lia. }
  eexists. split; [|split; [|split; [|split]]].
  - unfold maxConcurrency. simpl.
    apply Qlt_bool_false in Hle. rewrite Hle, Hs. simpl. reflexivity.
  - simpl. now rewrite Hn0.
  - simpl. rewrite Hn0. simpl. ring.
  - simpl. now rewrite Hn0.
  - intros m w2 Hm Hsz. unfold maxConcurrency. simpl.
    apply Qlt_bool_false in Hm. rewrite Hm. simpl.
    rewrite Hsz. simpl. now rewrite Hn0.
Qed.

Lemma maxConcurrency_once_witness :
  1 <= 2 /\ sem Base.start = initial /\
  exists w1,
    maxConcurrency Base.outside (VNumber 2) Base.start
      = Return (mod_function Base.outside) w1
    /\ _size (sem w1) = Some 2
    /\ ToNumber (_avail (sem w1)) == 2
    /\ _queued (sem w1) = []
    /\ forall m w2, 1 <= m -> _size (sem w2) = _size (sem w1) ->
         maxConcurrency Base.outside (VNumber m) w2
           = Throw ConfigurationError w2.
Proof.
  assert (H : 1 <= 2) by (unfold Qle; simpl; lia).
  split; [exact H|]. split; [reflexivity|].
  exact (maxConcurrency_once Base.outside 2 Base.start H eq_refl).
Defined.

(** What the factory does with a string, with zero, with a negative
    number, and with one and with one and a half. *)
Example maxConcurrency_samples :
  maxConcurrency Base.outside (VString "3") Base.start
    = Throw ValidationError Base.start
  /\ maxConcurrency Base.outside (VNumber 0) Base.start
    = Throw ValidationError Base.start
  /\ maxConcurrency Base.outside (VNumber (-2)) Base.start
    = Throw ValidationError Base.start
  /\ maxConcurrency Base.outside (VNumber 1) Base.start
    = Return (mod_function Base.outside) (Base.started 1)
  /\ maxConcurrency Base.outside (VNumber (3 # 2)) Base.start
    = Return (mod_function Base.outside) (Base.started (3 # 2))
  /\ maxConcurrency Base.outside (VNumber 2) (Base.started 1)
    = Throw ConfigurationError (Base.started 1).
Proof. repeat split. Qed.

(** ** Heap updates *)

Lemma update_coro_eq {E} l f (w : World E) :
  coros (update_coro l f w) !!! l = f (coros w !!! l).
Proof. unfold update_coro; simpl. apply lookup_total_insert_eq. Qed.

Lemma update_coro_ne {E} l l' f (w : World E) :
  l <> l' -> coros (update_coro l f w) !!! l' = coros w !!! l'.
Proof. intros H. unfold update_coro; simpl. now apply lookup_total_insert_ne. Qed.

Lemma update_coro_bags {E} l f (w : World E) :
  bags (update_coro l f w) = bags w.
Proof. reflexivity. Qed.

(** The real coroutine as [bindPlaceholder] leaves it: the methods it came
    with, the placeholder's context, the mark. *)
Lemma bindPlaceholder_real {E} co c (w : World E) :
  coros (bindPlaceholder co c w) !!! c =
    {| enter := enter (coros w !!! c); leave := leave (coros w !!! c);
       context := context (coros w !!! co); inSemaphore := VBool true |}.
Proof.
  unfold bindPlaceholder. cbv zeta.
  destruct (decide (co = c)) as [->|Hne].
  - rewrite !update_coro_eq. reflexivity.
  - rewrite !update_coro_eq, !(update_coro_ne co c) by assumption.
    reflexivity.
Qed.

(** The placeholder as [bindPlaceholder] leaves it, when the real
    coroutine is another object. *)
Lemma bindPlaceholder_placeholder {E} co c (w : World E) :
  co <> c ->
  coros (bindPlaceholder co c w) !!! co =
    {| enter := enter (coros w !!! c); leave := leave (coros w !!! c);
       context := context (coros w !!! co);
       inSemaphore := inSemaphore (coros w !!! co) |}.
Proof.
  intros Hne. unfold bindPlaceholder. cbv zeta.
  rewrite !(update_coro_ne c co) by congruence.
  rewrite !update_coro_eq, !(update_coro_ne co c) by assumption.
  reflexivity.
Qed.

Lemma bindPlaceholder_fields {E} co c (w : World E) :
  enter (coros (bindPlaceholder co c w) !!! co) = enter (coros w !!! c)
  /\ leave (coros (bindPlaceholder co c w) !!! co) = leave (coros w !!! c)
  /\ context (coros (bindPlaceholder co c w) !!! co) = context (coros w !!! co).
Proof.
  destruct (decide (co = c)) as [->|Hne].
  - rewrite bindPlaceholder_real. auto.
  - rewrite bindPlaceholder_placeholder by assumption. auto.
Qed.

Lemma bindPlaceholder_rest {E} co c (w : World E) :
  sem (bindPlaceholder co c w) = sem w
  /\ bags (bindPlaceholder co c w) = bags w
  /\ ext (bindPlaceholder co c w) = ext w
  /\ forall l, l <> co -> l <> c ->
       coros (bindPlaceholder co c w) !!! l = coros w !!! l.
Proof.
  repeat split. intros l H1 H2. unfold bindPlaceholder. cbv zeta.
  now rewrite !update_coro_ne by congruence.
Qed.

Lemma context_get_set {E} h h' k v (w : World E) :
  context (coros w !!! h') = context (coros w !!! h) ->
  context_get h' k (context_set h k v w)
    = match context (coros w !!! h) with
      | VObject _ => v
      | _ => VUndefined
      end.
Proof.
  intros Heq. unfold context_get, context_set.
  destruct (context (coros w !!! h)) eqn:Hc; simpl; rewrite Heq; auto.
  now rewrite lookup_total_insert_eq, lookup_insert_eq.
Qed.

(** ** The mod *)

(** C2. While a coroutine is running, [acquireCoro] is the inner
    pipeline's [acquireCoro] on the same arguments and the same world, its
    result returned as it is, whatever the semaphore holds: the mod neither
    reads nor writes the semaphore, which ends as the inner pipeline leaves
    it. *)
Theorem acquireCoro_nested {E} (X : Outside E) (p : pipeline)
  (protocol bodyFunc bodyThis bodyArgs : val) (w : World E) :
  truthy (currentCoro X p w) = true ->
  acquireCoro X p protocol bodyFunc bodyThis bodyArgs w
    = pipeline_acquireCoro X p protocol bodyFunc bodyThis bodyArgs w
  /\ (forall P,
        ends_in P
          (pipeline_acquireCoro X p protocol bodyFunc bodyThis bodyArgs w) ->
        ends_in P (acquireCoro X p protocol bodyFunc bodyThis bodyArgs w))
  /\ (forall s,
        currentCoro X p (set_sem s w) = currentCoro X p w ->
        acquireCoro X p protocol bodyFunc bodyThis bodyArgs (set_sem s w)
          = pipeline_acquireCoro X p protocol bodyFunc bodyThis bodyArgs
              (set_sem s w)).
Proof.
  intros H. unfold acquireCoro. rewrite H. split; [reflexivity|].
  split; [auto|]. intros s Hs. now rewrite Hs, H.
Qed.

Lemma acquireCoro_nested_witness :
  let w := Base.inside 5 (Base.started 1) in
  truthy (currentCoro Base.outside 7 w) = true
  /\ acquireCoro Base.outside 7 VNull (VString "body") VNull VNull w
     = pipeline_acquireCoro Base.outside 7 VNull (VString "body") VNull VNull w
  /\ ends_in (fun s => s = sem w)
       (acquireCoro Base.outside 7 VNull (VString "body") VNull VNull w).
Proof.
  intros w.
  destruct (acquireCoro_nested Base.outside 7 VNull (VString "body") VNull
              VNull w eq_refl) as (H1 & H2 & _).
  split; [reflexivity|]. split; [exact H1|].
  apply H2. reflexivity.
Defined.

(** C3. At top level [acquireCoro] returns a new object, the placeholder:
    its context is a new, empty object, its [enter] is the closure of line
    38, it has no [leave]. Nothing else changes: not the semaphore, not the
    state of the code outside; and the result is the same whatever the
    inner pipeline's [acquireCoro] and the functions outside would do, none
    of them being called. Calling the placeholder's [enter] is what enters
    the semaphore. *)
Theorem acquireCoro_top_level {E} (X : Outside E) (p : pipeline)
  (protocol bodyFunc bodyThis bodyArgs : val) (w : World E) :
  truthy (currentCoro X p w) = false ->
  exists co bag,
    let placeholder :=
      {| enter := VFunction (PlaceholderEnter p co protocol bodyFunc
                               bodyThis bodyArgs);
         leave := VUndefined;
         context := VObject bag;
         inSemaphore := VBool true |} in
    let w' :=
      {| sem := sem w; coros := <[co := placeholder]> (coros w);
         bags := <[bag := ∅]> (bags w); ext := ext w |} in
    acquireCoro X p protocol bodyFunc bodyThis bodyArgs w = Return co w'
    /\ coros w !! co = None
    /\ bags w !! bag = None
    /\ (forall k, context_get co k w' = VUndefined)
    /\ sem w' = sem w
    /\ ext w' = ext w
    /\ (forall X' : Outside E,
          currentCoro X' p w = currentCoro X p w ->
          acquireCoro X' p protocol bodyFunc bodyThis bodyArgs w = Return co w')
    /\ (forall fuel error value (w0 : World E),
          call X (S fuel) (enter placeholder) (VObject co) [error; value] w0
          = bind (enterSemaphore (invoke X fuel)
                    (Callback p co protocol bodyFunc bodyThis bodyArgs
                       error value) w0)
              (fun _ w1 => Return VUndefined w1)).
Proof.
  intros H.
  exists (fresh (dom (coros w))), (fresh (dom (bags w))). cbv zeta.
  split; [unfold acquireCoro; now rewrite H|].
  split; [apply not_elem_of_dom, is_fresh|].
  split; [apply not_elem_of_dom, is_fresh|].
  split.
  { intros k. unfold context_get. simpl.
    rewrite lookup_total_insert_eq. simpl.
    now rewrite lookup_total_insert_eq, lookup_empty. }
  split; [reflexivity|]. split; [reflexivity|].
  split; [|reflexivity].
  intros X' HX'. unfold acquireCoro. now rewrite HX', H.
Qed.

Lemma acquireCoro_top_level_witness :
  truthy (currentCoro Base.outside 7 (Base.started 1)) = false
  /\ exists co w',
       acquireCoro Base.outside 7 VNull (VString "body") VNull VNull
         (Base.started 1) = Return co w'
       /\ coros (Base.started 1) !! co = None
       /\ (forall k, context_get co k w' = VUndefined)
       /\ sem w' = sem (Base.started 1)
       /\ ext w' = ext (Base.started 1).
Proof.
  split; [reflexivity|].
  destruct (acquireCoro_top_level Base.outside 7 VNull (VString "body") VNull
              VNull (Base.started 1) eq_refl)
    as (co & bag & Hco & Hnew & _ & Hbag & Hsem & Hext & _).
  exists co. eexists. split; [exact Hco|]. split; [exact Hnew|].
  split; [exact Hbag|]. split; [exact Hsem | exact Hext].
Defined.

(** The placeholder's [enter] with a slot free takes the slot and runs its
    callback at once. *)
Lemma enter_with_slot {E} (X : Outside E) fuel p co protocol bodyFunc bodyThis
  bodyArgs this error value (w : World E) :
  0 < ToNumber (_avail (sem w)) ->
  call X (S fuel)
    (VFunction (PlaceholderEnter p co protocol bodyFunc bodyThis bodyArgs))
    this [error; value] w
  = bind (invoke X fuel
            (Callback p co protocol bodyFunc bodyThis bodyArgs error value)
            (set_sem {| _size := _size (sem w);
                        _avail := Some (ToNumber (_avail (sem w)) - 1);
                        _queued := _queued (sem w) |} w))
      (fun _ w' => Return VUndefined w').
Proof.
  intros H. simpl. now rewrite enterSemaphore_slot.
Qed.

(** X13. With no slot free the placeholder's [enter] only appends its
    callback to the queue and returns [undefined]: no coroutine is
    acquired, nothing outside the module is called, [_avail] and the
    objects are as they were. *)
Theorem enter_without_slot {E} (X : Outside E) fuel p co protocol bodyFunc
  bodyThis bodyArgs this error value (w : World E) :
  ~ 0 < ToNumber (_avail (sem w)) ->
  call X (S fuel)
    (VFunction (PlaceholderEnter p co protocol bodyFunc bodyThis bodyArgs))
    this [error; value] w
  = Return VUndefined
      (set_sem {| _size := _size (sem w); _avail := _avail (sem w);
                  _queued := _queued (sem w) ++
                    [Callback p co protocol bodyFunc bodyThis bodyArgs
                       error value] |} w).
Proof.
  intros H. simpl. now rewrite enterSemaphore_full.
Qed.

(** C4. The placeholder's [enter(error, value)] obtains its slot in one
    of two ways: at once when a slot is free, [_avail] going down by one;
    or, having queued its callback, when a later [leaveSemaphore] takes
    that callback off the queue. Either way, [w] being the world in which
    the slot is obtained: once the inner pipeline has returned the real
    coroutine [c] in the world [w1], the [enter] that [c] came with is
    called on the same [(error, value)] in the world [w2] where the
    placeholder's [enter] and [leave] are those of [c], the context of [c]
    is the placeholder's, so that every property read through [c] is what
    the placeholder's context holds, and [c] is marked. *)
Theorem placeholder_binds_real {E} (X : Outside E) (fuel : nat)
  (p : pipeline) (co : loc) (protocol bodyFunc bodyThis bodyArgs : val)
  (this error value : val) (w w1 : World E) (c : loc) :
  pipeline_acquireCoro X p protocol bodyFunc bodyThis bodyArgs w
    = Return c w1 ->
  let fn := Callback p co protocol bodyFunc bodyThis bodyArgs error value in
  let w2 := bindPlaceholder co c w1 in
  let real_enter :=
    call X fuel (enter (coros w1 !!! c)) (VObject co) [error; value] w2 in
  (forall w0 : World E,
     0 < ToNumber (_avail (sem w0)) ->
     w = set_sem {| _size := _size (sem w0);
                    _avail := Some (ToNumber (_avail (sem w0)) - 1);
                    _queued := _queued (sem w0) |} w0 ->
     call X (S fuel)
       (VFunction (PlaceholderEnter p co protocol bodyFunc bodyThis bodyArgs))
       this [error; value] w0
     = bind real_enter (fun _ w3 => Return VUndefined w3))
  /\ (forall w0 : World E,
       ~ 0 < ToNumber (_avail (sem w0)) ->
       call X (S fuel)
         (VFunction (PlaceholderEnter p co protocol bodyFunc bodyThis
                       bodyArgs))
         this [error; value] w0
       = Return VUndefined
           (set_sem {| _size := _size (sem w0); _avail := _avail (sem w0);
                       _queued := _queued (sem w0) ++ [fn] |} w0))
  /\ (forall (w0 : World E) rest,
       _queued (sem w0) = fn :: rest ->
       w = set_sem {| _size := _size (sem w0); _avail := _avail (sem w0);
                      _queued := rest |} w0 ->
       leaveSemaphore (invoke X fuel) w0
       = bind real_enter (fun _ w3 => Return tt w3))
  /\ invoke X fuel fn w = bind real_enter (fun _ w3 => Return tt w3)
  /\ enter (coros w2 !!! co) = enter (coros w1 !!! c)
  /\ leave (coros w2 !!! co) = leave (coros w1 !!! c)
  /\ context (coros w2 !!! c) = context (coros w1 !!! co)
  /\ (forall k, context_get c k w2 = context_get co k w1)
  /\ (context (coros w1 !!! co) = context (coros w !!! co) ->
      bags w1 = bags w ->
      forall k, context_get c k w2 = context_get co k w)
  /\ inSemaphore (coros w2 !!! c) = VBool true
  /\ sem w2 = sem w1.
Proof.
  intros Hacq fn w2 real_enter.
  destruct (bindPlaceholder_fields co c w1) as (He & Hl & _).
  assert (Hget : forall k, context_get c k w2 = context_get co k w1).
  { intros k. unfold context_get, w2. now rewrite bindPlaceholder_real. }
  assert (Hrun : invoke X fuel fn w
                 = bind real_enter (fun _ w3 => Return tt w3)).
  { unfold invoke, callback_body, fn.
    cbn [cb_pipeline cb_co cb_protocol cb_bodyFunc cb_bodyThis cb_bodyArgs
         cb_error cb_value].
    rewrite Hacq. cbn [bind]. cbv zeta. now rewrite He. }
  split.
  { intros w0 Hlt Hw. rewrite enter_with_slot by assumption.
    rewrite <- Hw. fold fn. rewrite Hrun. now destruct real_enter. }
  split.
  { intros w0 Hfull. simpl. now rewrite enterSemaphore_full. }
  split.
  { intros w0 rest Hq Hw.
    rewrite (leaveSemaphore_handoff _ fn rest) by exact Hq.
    rewrite <- Hw. exact Hrun. }
  split; [exact Hrun|].
  split; [exact He|]. split; [exact Hl|].
  split; [unfold w2; now rewrite bindPlaceholder_real|].
  split; [exact Hget|].
  split.
  { intros Hc Hb k. rewrite Hget. unfold context_get. now rewrite Hc, Hb. }
  split; [unfold w2; now rewrite bindPlaceholder_real | reflexivity].
Qed.

Lemma placeholder_binds_real_witness :
  exists c w1,
    pipeline_acquireCoro Base.outside 7 VNull (VString "body") VNull VNull
      Scenario.slot_taken = Return c w1
    /\ call Base.outside 2
         (VFunction (PlaceholderEnter 7 1 VNull (VString "body") VNull VNull))
         VNull [VNull; VUndefined] Scenario.with_placeholder
       = Return VUndefined
           (Base.record (Base.Called 1 (VObject 1) [VNull; VUndefined])
              (bindPlaceholder 1 c w1))
    /\ context_get c "user" (bindPlaceholder 1 c w1) = VNumber 42
    /\ enter (coros (bindPlaceholder 1 c w1) !!! 1%positive)
       = VFunction (Native 1)
    /\ inSemaphore (coros (bindPlaceholder 1 c w1) !!! c) = VBool true
    /\ invoke Base.outside 1
         (Callback 7 1 VNull (VString "body") VNull VNull VNull VUndefined)
         Scenario.slot_taken
       = Return tt
           (Base.record (Base.Called 1 (VObject 1) [VNull; VUndefined])
              (bindPlaceholder 1 c w1)).
Proof.
  eexists _, _. split; [reflexivity|].
  destruct (placeholder_binds_real Base.outside 1 7 1 VNull (VString "body")
              VNull VNull VNull VNull VUndefined Scenario.slot_taken _ _
              eq_refl)
    as (Hcall & _ & _ & Hrun & He & _ & _ & Hget & _ & Hm & _).
  split.
  { rewrite (Hcall Scenario.with_placeholder) by reflexivity. reflexivity. }
  split; [rewrite Hget; reflexivity|].
  split; [rewrite He; reflexivity|].
  split; [exact Hm|].
  rewrite Hrun. reflexivity.
Defined.

(** The scenario: the first call enters at once, the second waits; the
    release of the first hands its slot to the second, whose coroutine is
    only then acquired and entered, before the inner pipeline disposes of
    the first. *)
Example one_slot_two_calls :
  Scenario.log_of Scenario.two_calls
  = [Base.Acquired 7 2 (VString "first");
     Base.Called 1 (VObject 1) [VNull; VUndefined]]
  /\ (_queued <$> Scenario.sem_of Scenario.two_calls)
     = Some [Callback 7 3 VNull (VString "second") VNull VNull VNull
               VUndefined]
  /\ Scenario.log_of Scenario.then_release
     = [Base.Acquired 7 2 (VString "first");
        Base.Called 1 (VObject 1) [VNull; VUndefined];
        Base.Acquired 7 4 (VString "second");
        Base.Called 1 (VObject 3) [VNull; VUndefined];
        Base.Released 7 1]
  /\ Scenario.sem_of Scenario.then_release
     = Some {| _size := Some 1; _avail := Some 0; _queued := [] |}.
Proof. vm_compute. repeat split. Qed.



(** C10. Binding copies no object: it stores in the real coroutine the
    reference found in the placeholder. The two [context] properties are
    then the same value and the bags are those of before; an assignment to
    a property made through either handle is read back through the
    other. *)
Theorem context_is_shared {E} (co c : loc) (w1 : World E) :
  let w2 := bindPlaceholder co c w1 in
  context (coros w2 !!! c) = context (coros w2 !!! co)
  /\ context (coros w2 !!! c) = context (coros w1 !!! co)
  /\ bags w2 = bags w1
  /\ (forall k v,
        context_get c k (context_set co k v w2)
        = context_get co k (context_set co k v w2))
  /\ (forall k v,
        context_get co k (context_set c k v w2)
        = context_get c k (context_set c k v w2))
  /\ (forall bag k v,
        context (coros w1 !!! co) = VObject bag ->
        context_get c k (context_set co k v w2) = v
        /\ context_get co k (context_set c k v w2) = v).
Proof.
  intros w2.
  destruct (bindPlaceholder_fields co c w1) as (_ & _ & Hco).
  assert (Hc : context (coros w2 !!! c) = context (coros w1 !!! co)).
  { unfold w2. now rewrite bindPlaceholder_real. }
  assert (Heq : context (coros w2 !!! c) = context (coros w2 !!! co)).
  { rewrite Hc. symmetry. exact Hco. }
  split; [exact Heq|]. split; [exact Hc|]. split; [reflexivity|].
  split; [|split].
  - intros k v. now rewrite !context_get_set.
  - intros k v. now rewrite !context_get_set.
  - intros bag k v Hb. rewrite !context_get_set by congruence.
    rewrite Hc, Hb. fold w2 in Hco. rewrite Hco, Hb. auto.
Qed.

(** ** The iterator *)

Module IterableFacts.
Import Iterable.


Lemma drive_finished k it :
  state it = Done \/ state it = Failed ->
  drive k it = repeat exhausted k.
Proof.
  intros H. induction k as [|k IH]; [reflexivity|].
  simpl. unfold next at 1 2. destruct H as [-> | ->]; simpl; now rewrite IH.
Qed.

(** An iteration over a body that returns delivers every yielded value in
    order, then the returned value, then only IterationExhaustedError. *)
Lemma drive_returning k vs r it :
  state it = NotStarted \/ state it = Suspended ->
  pending it = vs -> finish it = Returns r ->
  drive (length vs + 1 + k) it
    = (yielded <$> vs) ++ returned r :: repeat exhausted k.
Proof.
  revert it. induction vs as [|v vs IH]; intros it Hs Hp Hf.
  - simpl. unfold next at 1 2. rewrite Hp, Hf.
    destruct Hs as [-> | ->]; simpl; now rewrite drive_finished by auto.
  - simpl. unfold next at 1 2. rewrite Hp.
    destruct Hs as [-> | ->]; simpl; now rewrite IH by auto.
Qed.

(** C7. Over the body of the test called with [count = 3], which yields
    111, 222, 333 and returns ['done'], five [next()] in a row deliver
    these four results in order and then IterationExhaustedError, as the
    error of the completion callback. *)
Theorem next_delivers_in_order :
  drive 5 (iterable (foo 3))
  = [ (None, Some {| done := false; value := VNumber 111 |});
      (None, Some {| done := false; value := VNumber 222 |});
      (None, Some {| done := false; value := VNumber 333 |});
      (None, Some {| done := true; value := VString "done" |});
      (Some IterationExhaustedError, None) ].
Proof. reflexivity. Qed.

(** Lines 93-98 of the test: past the end of [foo(1)] the third [next()]
    fails. *)
Example foo_1_exhausted :
  drive 3 (iterable (foo 1))
  = [yielded (VNumber 111); returned (VString "done"); exhausted].
Proof. reflexivity. Qed.

(** Lines 88-91: out of range, the body throws at once. *)
Example foo_20_throws :
  drive 2 (iterable (foo 20))
  = [(Some (BodyError (Error "out of range")), None); exhausted].
Proof. reflexivity. Qed.

End IterableFacts.

(** * Further properties *)

(** ** Whole numbers of slots *)

Lemma whole_pred k : inject_Z (Z.of_nat (S k)) - 1 == inject_Z (Z.of_nat k).
Proof.
  rewrite Nat2Z.inj_succ. unfold Z.succ. rewrite inject_Z_plus.
  unfold Qeq; simpl. lia.
Qed.

Lemma whole_succ k : inject_Z (Z.of_nat k) + 1 == inject_Z (Z.of_nat (S k)).
Proof.
  rewrite Nat2Z.inj_succ. unfold Z.succ. rewrite inject_Z_plus. reflexivity.
Qed.

Lemma whole_positive k : 0 < inject_Z (Z.of_nat k) -> exists k1, k = S k1.
Proof.
  destruct k as [|k1]; [|eauto].
  intros H. exfalso. revert H. apply Qlt_irrefl.
Qed.

Lemma whole_not_positive k : inject_Z (Z.of_nat k) <= 0 -> k = O.
Proof.
  unfold Qle; simpl. lia.
Qed.

Lemma whole_inj j k :
  inject_Z (Z.of_nat j) == inject_Z (Z.of_nat k) -> j = k.
Proof.
  unfold Qeq; simpl. lia.
Qed.

(** ** The semaphore over sequences of operations *)

Ltac use_IH IH n :=
  match goal with
  | |- context [Ops.run _ ?w1] =>
      let w' := fresh "w'" in
      let k' := fresh "k'" in
      let Hrun := fresh "Hrun" in
      destruct (IH w1 n) as (w' & k' & Hrun & ?HI' & ?Hk' & ?Hn & ?Ho & ?Hs);
      [| |exists w', k'; rewrite Hrun]
  end.

(** What every run keeps, from a state with a whole number [k] of free
    slots that satisfies the invariant. *)
Lemma run_inv ops : forall (w : World (list callback)) (k : nat),
  Inv (sem w) ->
  ToNumber (_avail (sem w)) == inject_Z (Z.of_nat k) ->
  exists w' k',
    Ops.run ops w = Return tt w'
    /\ Inv (sem w')
    /\ ToNumber (_avail (sem w')) == inject_Z (Z.of_nat k')
    /\ (k' + length (ext w') = k + length (ext w) + Ops.left ops)%nat
    /\ ext w' ++ _queued (sem w') = ext w ++ _queued (sem w) ++ Ops.entered ops
    /\ _size (sem w') = _size (sem w).
Proof.
  induction ops as [|o ops IH]; intros w k HI Hk.
  - exists w, k. simpl. rewrite app_nil_r. repeat split; auto; lia.
  - destruct o as [fn|]; simpl.
    + unfold enterSemaphore.
      destruct (Qlt_bool 0 (ToNumber (_avail (sem w)))) eqn:Hlt.
      * apply Qlt_bool_iff in Hlt.
        assert (Hq : _queued (sem w) = []).
        { destruct (_queued (sem w)) eqn:Hq; [reflexivity|].
          exfalso.
          assert (H0 : ToNumber (_avail (sem w)) == 0)
            by (apply HI; rewrite Hq; discriminate).
          rewrite H0 in Hlt. revert Hlt. apply Qlt_irrefl. }
        rewrite Hk in Hlt. destruct (whole_positive k Hlt) as [k1 ->].
        simpl.
        use_IH IH (k1).
        { intros Hne. simpl in Hne. contradiction. }
        { simpl. rewrite Hk. apply whole_pred. }
        simpl in *. rewrite Hq in *. rewrite length_app in Hn. simpl in Hn.
        repeat split; auto; [lia|].
        rewrite Ho. simpl. now rewrite <- app_assoc.
      * apply Qlt_bool_false in Hlt. rewrite Hk in Hlt.
        apply whole_not_positive in Hlt. subst k. simpl.
        use_IH IH (O).
        { intros _. simpl. exact Hk. }
        { simpl. exact Hk. }
        simpl in *. repeat split; auto.
        rewrite Ho. now rewrite <- !app_assoc.
    + unfold leaveSemaphore.
      destruct (_queued (sem w)) as [|f q] eqn:Hq; simpl.
      * use_IH IH (S k).
        { intros Hne. simpl in Hne. rewrite Hq in Hne. contradiction. }
        { simpl. rewrite Hk. apply whole_succ. }
        simpl in *. rewrite Hq in *. repeat split; auto. lia.
      * assert (H0 : ToNumber (_avail (sem w)) == 0)
          by (apply HI; rewrite Hq; discriminate).
        assert (k = O) as ->.
        { rewrite Hk in H0. now apply (whole_inj k O). }
        use_IH IH (O).
        { intros _. simpl. exact H0. }
        { simpl. exact Hk. }
        simpl in *. rewrite length_app in Hn. simpl in Hn.
        repeat split; auto; [lia|].
        rewrite Ho. now rewrite <- !app_assoc.
Qed.

Lemma limited_whole (n : nat) :
  Inv (sem (Ops.limited (inject_Z (Z.of_nat n))))
  /\ ToNumber (_avail (sem (Ops.limited (inject_Z (Z.of_nat n)))))
     == inject_Z (Z.of_nat n).
Proof.
  unfold Ops.limited, semaphoreSize, Inv.
  destruct (Qeq_bool (inject_Z (Z.of_nat n)) 0) eqn:H0; simpl.
  - split; [intros Hne; now elim Hne|].
    apply Qeq_bool_iff in H0. now rewrite H0.
  - split; [intros Hne; now elim Hne | ring].
Qed.

Lemma limited_queue (n : Q) : _queued (sem (Ops.limited n)) = [].
Proof.
  unfold Ops.limited, semaphoreSize. simpl. now destruct (Qeq_bool n 0).
Qed.

Lemma entered_enters fs : Ops.entered (Ops.Enter <$> fs) = fs.
Proof. induction fs as [|f fs IH]; [reflexivity|]. rewrite fmap_cons. simpl. congruence. Qed.

Lemma left_enters fs : Ops.left (Ops.Enter <$> fs) = O.
Proof. induction fs as [|f fs IH]; [reflexivity|]. rewrite fmap_cons. simpl. congruence. Qed.

(** X1. Whatever the program does with the semaphore, starting from a
    state with a whole number of free slots that satisfies the invariant:
    the run ends in such a state again, [_size] is never changed, and the
    callbacks invoked so far followed by those still waiting are the
    callbacks that entered, in the order of their arrival -- none lost,
    none invoked twice, none overtaken. *)
Theorem run_keeps_order (ops : list Ops.op) (w : World (list callback)) :
  Good (sem w) ->
  exists w',
    Ops.run ops w = Return tt w'
    /\ Good (sem w')
    /\ _size (sem w') = _size (sem w)
    /\ ext w' ++ _queued (sem w')
       = ext w ++ _queued (sem w) ++ Ops.entered ops.
Proof.
  intros [HI [k Hk]].
  destruct (run_inv ops w k HI Hk) as (w' & k' & Hrun & HI' & Hk' & _ & Ho & Hs).
  exists w'. repeat split; auto. now exists k'.
Qed.

Lemma run_keeps_order_witness :
  Good (sem (Ops.limited 1))
  /\ exists w',
       Ops.run [Ops.Enter (Callback 1 1 VNull VNull VNull VNull VNull VNull);
                Ops.Enter (Callback 1 2 VNull VNull VNull VNull VNull VNull);
                Ops.Leave]
         (Ops.limited 1) = Return tt w'
       /\ ext w' ++ _queued (sem w')
          = [Callback 1 1 VNull VNull VNull VNull VNull VNull;
             Callback 1 2 VNull VNull VNull VNull VNull VNull].
Proof.
  assert (H : Good (sem (Ops.limited 1))).
  { split; [intros Hne; now elim Hne | now exists 1%nat]. }
  split; [exact H|].
  destruct (run_keeps_order
              [Ops.Enter (Callback 1 1 VNull VNull VNull VNull VNull VNull);
               Ops.Enter (Callback 1 2 VNull VNull VNull VNull VNull VNull);
               Ops.Leave] (Ops.limited 1) H) as (w' & Hrun & _ & _ & Ho).
  exists w'. split; [exact Hrun | exact Ho].
Defined.

(** X2. With the size set to [n] in a fresh process, after any run the
    number of callbacks invoked is at most [n] plus the number of
    [leaveSemaphore()] calls made, and a callback waits only when it is
    exactly that. Every leave counts, also one made without a slot held,
    which raises the bound. *)
Theorem run_bounded (n : nat) (ops : list Ops.op) :
  exists w',
    Ops.run ops (Ops.limited (inject_Z (Z.of_nat n))) = Return tt w'
    /\ (length (ext w') <= n + Ops.left ops)%nat
    /\ (_queued (sem w') <> [] ->
        length (ext w') = (n + Ops.left ops)%nat).
Proof.
  destruct (limited_whole n) as [HI Hk].
  destruct (run_inv ops _ n HI Hk) as (w' & k' & Hrun & HI' & Hk' & Hn & _ & _).
  exists w'. simpl in Hn. split; [exact Hrun|]. split; [lia|].
  intros Hq. apply HI' in Hq. rewrite Hk' in Hq.
  apply (whole_inj k' O) in Hq. lia.
Qed.

(** X3. With the size set to [n] in a fresh process, of the callbacks
    that enter one after the other the first [n] are invoked at once, in
    order, and the others wait, in order. *)
Theorem first_n_enter_at_once (n : nat) (fs : list callback) :
  exists w',
    Ops.run (Ops.Enter <$> fs) (Ops.limited (inject_Z (Z.of_nat n)))
      = Return tt w'
    /\ ext w' = take n fs
    /\ _queued (sem w') = drop n fs.
Proof.
  destruct (limited_whole n) as [HI Hk].
  destruct (run_inv (Ops.Enter <$> fs) _ n HI Hk)
    as (w' & k' & Hrun & HI' & Hk' & Hn & Ho & _).
  exists w'. split; [exact Hrun|].
  rewrite entered_enters, limited_queue in Ho. rewrite left_enters in Hn.
  simpl in Hn, Ho.
  destruct (_queued (sem w')) as [|f q] eqn:Hq.
  - rewrite app_nil_r in Ho. subst fs.
    rewrite take_ge, drop_ge by lia. auto.
  - assert (Hk0 : k' = O).
    { apply (whole_inj k' O). rewrite <- Hk'. apply HI'.
      rewrite Hq. discriminate. }
    subst k'. rewrite <- Ho.
    rewrite take_app_length', drop_app_length' by lia. auto.
Qed.

(** X4. [semaphoreSize] moves [_avail] by exactly the change of [_size]:
    the number of slots in use, [_size - _avail], is the same before and
    after. It never touches the queue, it returns the size now in force,
    and without an argument or with [0] it changes nothing. *)
Theorem resize_keeps_slots_in_use (n : option Q) (s : Semaphore) :
  let s' := snd (semaphoreSize n s) in
  ToNumber (_size s') - ToNumber (_avail s')
    == ToNumber (_size s) - ToNumber (_avail s)
  /\ _queued s' = _queued s
  /\ fst (semaphoreSize n s) = _size s'
  /\ (n = None -> s' = s)
  /\ (forall q, n = Some q -> q == 0 -> s' = s).
Proof.
  unfold semaphoreSize.
  destruct n as [q|]; [destruct (Qeq_bool q 0) eqn:H0|]; simpl;
    repeat split; try reflexivity; try ring; try discriminate.
  intros q' Hq' H0'. injection Hq' as <-.
  apply Qeq_bool_iff in H0'. congruence.
Qed.

Section Compose.
Context {E : Type} (invoke : callback -> World E -> outcome E unit).

(** X5. Entering with a slot free and then leaving, the callback having
    returned without touching the semaphore, gives the slot back: [_avail]
    is what it was, and nothing waits. *)
Theorem enter_leave_round_trip (fn : callback) (w w1 : World E) :
  0 < ToNumber (_avail (sem w)) ->
  _queued (sem w) = [] ->
  invoke fn
    (set_sem (set_avail (Some (ToNumber (_avail (sem w)) - 1)) (sem w)) w)
    = Return tt w1 ->
  sem w1 = set_avail (Some (ToNumber (_avail (sem w)) - 1)) (sem w) ->
  exists w2,
    bind (enterSemaphore invoke fn w) (fun _ w' => leaveSemaphore invoke w')
      = Return tt w2
    /\ ToNumber (_avail (sem w2)) == ToNumber (_avail (sem w))
    /\ _queued (sem w2) = []
    /\ _size (sem w2) = _size (sem w)
    /\ coros w2 = coros w1 /\ bags w2 = bags w1 /\ ext w2 = ext w1.
Proof.
  intros Hlt Hq Hcb Hs.
  unfold enterSemaphore. apply Qlt_bool_iff in Hlt. rewrite Hlt.
  rewrite Hcb. simpl. unfold leaveSemaphore. rewrite Hs. simpl. rewrite Hq.
  eexists. split; [reflexivity|]. simpl. rewrite Hq.
  repeat split; auto. ring.
Qed.

(** X6. The invariant together with a whole number of free slots is kept
    by [enterSemaphore] and by [leaveSemaphore] from every state, with
    callbacks that keep it: nothing more is needed of the state, a whole
    number of free slots being never negative. *)
Theorem good_kept (w : World E) :
  Good (sem w) ->
  (forall fn w0, Good (sem w0) -> ends_in Good (invoke fn w0)) ->
  (forall fn, ends_in Good (enterSemaphore invoke fn w))
  /\ ends_in Good (leaveSemaphore invoke w).
Proof.
  intros [HI [k Hk]] Hcb. split.
  - intros fn. unfold enterSemaphore.
    destruct (Qlt_bool 0 (ToNumber (_avail (sem w)))) eqn:Hlt.
    + apply Hcb. apply Qlt_bool_iff in Hlt. split.
      * intros Hne. simpl in Hne. apply HI in Hne.
        rewrite Hne in Hlt. exfalso. revert Hlt. apply Qlt_irrefl.
      * rewrite Hk in Hlt. destruct (whole_positive k Hlt) as [k1 ->].
        exists k1. simpl. rewrite Hk. apply whole_pred.
    + apply Qlt_bool_false in Hlt. simpl. split.
      * intros _. simpl. rewrite Hk in Hlt.
        apply whole_not_positive in Hlt. subst k. exact Hk.
      * now exists k.
  - unfold leaveSemaphore.
    destruct (_queued (sem w)) as [|f q] eqn:Hq.
    + simpl. split.
      * intros Hne. simpl in Hne. rewrite Hq in Hne. now elim Hne.
      * exists (S k). simpl. rewrite Hk. apply whole_succ.
    + apply Hcb. split.
      * intros _. simpl. apply HI. rewrite Hq. discriminate.
      * now exists k.
Qed.

End Compose.

Lemma good_kept_witness :
  Good (sem (Ops.limited 2))
  /\ (forall fn, ends_in Good (enterSemaphore Noting.noting fn (Ops.limited 2)))
  /\ ends_in Good (leaveSemaphore Noting.noting (Ops.limited 2)).
Proof.
  assert (H : Good (sem (Ops.limited 2))).
  { split; [intros Hne; now elim Hne | now exists 2%nat]. }
  split; [exact H|].
  exact (good_kept Noting.noting (Ops.limited 2) H (noting_keeps Good)).
Defined.

Lemma enter_leave_round_trip_witness :
  exists w2,
    bind (enterSemaphore Noting.noting
            (Callback 1 1 VNull VNull VNull VNull VNull VNull) (Ops.limited 2))
      (fun _ w' => leaveSemaphore Noting.noting w') = Return tt w2
    /\ ToNumber (_avail (sem w2)) == 2
    /\ _queued (sem w2) = [].
Proof.
  destruct (enter_leave_round_trip Noting.noting
              (Callback 1 1 VNull VNull VNull VNull VNull VNull)
              (Ops.limited 2) _ eq_refl eq_refl eq_refl eq_refl)
    as (w2 & Hrun & Ha & Hq & _).
  exists w2. split; [exact Hrun|]. split; [|exact Hq].
  rewrite Ha. reflexivity.
Defined.

(** X7. The first application with a whole capacity of at least one
    leaves the semaphore in a state that satisfies the invariant, with
    that whole number of slots free. *)
Theorem first_application_good {E} (X : Outside E) (n : nat) (w : World E) :
  (1 <= n)%nat ->
  sem w = initial ->
  exists w1,
    maxConcurrency X (VNumber (inject_Z (Z.of_nat n))) w
      = Return (mod_function X) w1
    /\ Good (sem w1)
    /\ ToNumber (_avail (sem w1)) == inject_Z (Z.of_nat n).
Proof.
  intros Hn Hs.
  assert (Hlt : Qlt_bool (inject_Z (Z.of_nat n)) 1 = false).
  { apply Qlt_bool_false. unfold Qle; simpl. lia. }
  assert (H0 : Qeq_bool (inject_Z (Z.of_nat n)) 0 = false).
  { apply not_true_iff_false. intros H. apply Qeq_bool_iff in H.
    apply (whole_inj n O) in H. lia. }
  eexists. split; [|split].
  - unfold maxConcurrency. simpl. rewrite Hlt, Hs. simpl. reflexivity.
  - simpl. rewrite H0. split.
    + intros Hne. simpl in Hne. now elim Hne.
    + exists n. simpl. ring.
  - simpl. rewrite H0. simpl. ring.
Qed.

Lemma first_application_good_witness :
  (1 <= 3)%nat /\ sem Base.start = initial
  /\ exists w1,
       maxConcurrency Base.outside (VNumber (inject_Z (Z.of_nat 3))) Base.start
         = Return (mod_function Base.outside) w1
       /\ Good (sem w1)
       /\ ToNumber (_avail (sem w1)) == inject_Z (Z.of_nat 3).
Proof.
  assert (H : (1 <= 3)%nat) by lia.
  split; [exact H|]. split; [reflexivity|].
  exact (first_application_good Base.outside 3 Base.start H eq_refl).
Defined.

(** ** The factory, its errors and the test hook *)

(** X8. When the factory throws, the world is as it was: nothing of the
    semaphore has been set. It throws only its two errors, the second only
    for an argument that passed the check of line 12 and with the size
    already set. *)
Theorem maxConcurrency_throws_cleanly {E} (X : Outside E) (v : val)
  (w w' : World E) (e : exn) :
  maxConcurrency X v w = Throw e w' ->
  w' = w
  /\ (e = ValidationError
      \/ (e = ConfigurationError
          /\ _size (sem w) <> None
          /\ exists n, v = VNumber n /\ 1 <= n)).
Proof.
  unfold maxConcurrency. intros H.
  destruct (negb (isNumber v) || lt_number v 1) eqn:Hv.
  - injection H as <- <-. auto.
  - destruct (not_null (fst (semaphoreSize None (sem w)))) eqn:Hs;
      [|discriminate H].
    injection H as <- <-. split; [reflexivity|]. right.
    split; [reflexivity|]. split.
    + simpl in Hs. destruct (_size (sem w)); [discriminate | discriminate Hs].
    + destruct v; try discriminate Hv. simpl in Hv.
      exists n. split; [reflexivity|]. now apply Qlt_bool_false.
Qed.

Lemma maxConcurrency_throws_cleanly_witness :
  maxConcurrency Base.outside (VNumber 2) (Base.started 1)
    = Throw ConfigurationError (Base.started 1)
  /\ _size (sem (Base.started 1)) <> None.
Proof.
  assert (H : maxConcurrency Base.outside (VNumber 2) (Base.started 1)
              = Throw ConfigurationError (Base.started 1)) by reflexivity.
  split; [exact H|].
  destruct (maxConcurrency_throws_cleanly Base.outside _ _ _ _ H)
    as [_ [Hv | (_ & Hs & _)]]; [discriminate Hv | exact Hs].
Defined.

(** X9. The test hook [_reset] starts the process over, whatever the
    semaphore held: the size is forgotten, callbacks that waited are
    dropped without being invoked, and the next application with a valid
    capacity is a first one again. *)
Theorem reset_starts_over {E} (X : Outside E) (n : Q) (w : World E) :
  1 <= n ->
  _queued (_reset (sem w)) = []
  /\ exists w1,
       maxConcurrency X (VNumber n) (set_sem (_reset (sem w)) w)
         = Return (mod_function X) w1
       /\ _size (sem w1) = Some n
       /\ ToNumber (_avail (sem w1)) == n
       /\ _queued (sem w1) = []
       /\ coros w1 = coros w /\ bags w1 = bags w /\ ext w1 = ext w.
Proof.
  intros Hle. split; [reflexivity|].
  assert (Hn0 : Qeq_bool n 0 = false).
  { apply not_true_iff_false. intros H0. apply Qeq_bool_iff in H0.
    rewrite H0 in Hle. unfold Qle in Hle. simpl in Hle. lia. }
  eexists. split.
  - unfold maxConcurrency. simpl.
    apply Qlt_bool_false in Hle. rewrite Hle. reflexivity.
  - simpl. rewrite Hn0. simpl. repeat split; auto. ring.
Qed.

Lemma reset_starts_over_witness :
  1 <= 3
  /\ exists w1,
       maxConcurrency Base.outside (VNumber 3)
         (set_sem (_reset (sem Bound.two_started)) Bound.two_started)
         = Return (mod_function Base.outside) w1
       /\ _size (sem w1) = Some 3
       /\ _queued (sem w1) = [].
Proof.
  assert (H : 1 <= 3) by (unfold Qle; simpl; lia).
  split; [exact H|].
  destruct (reset_starts_over Base.outside 3 Bound.two_started H)
    as (_ & w1 & Hrun & Hs & _ & Hq & _).
  exists w1. auto.
Defined.

(** ** The placeholder's [enter] *)

(** X10. With a slot free and an inner pipeline whose coroutine has a
    function of its own for [enter], the placeholder's [enter] takes the
    slot, has the real coroutine made and bound, and calls that function
    on the placeholder -- whatever [this] it was itself called on -- with
    its first two arguments, [undefined] standing for a missing one. It
    returns [undefined] whatever that function returns and needs no more
    fuel than one unit. *)
Theorem enter_runs_real_enter {E} (X : Outside E) (fuel : nat) (p : pipeline)
  (co : loc) (protocol bodyFunc bodyThis bodyArgs this : val)
  (args : list val) (w w1 : World E) (c : loc) (id : positive) :
  0 < ToNumber (_avail (sem w)) ->
  pipeline_acquireCoro X p protocol bodyFunc bodyThis bodyArgs
    (set_sem {| _size := _size (sem w);
                _avail := Some (ToNumber (_avail (sem w)) - 1);
                _queued := _queued (sem w) |} w)
    = Return c w1 ->
  enter (coros w1 !!! c) = VFunction (Native id) ->
  call X (S fuel)
    (VFunction (PlaceholderEnter p co protocol bodyFunc bodyThis bodyArgs))
    this args w
  = bind (native X id (VObject co)
            [nth 0 args VUndefined; nth 1 args VUndefined]
            (bindPlaceholder co c w1))
      (fun _ w' => Return VUndefined w').
Proof.
  intros Hlt Hacq Hnat. simpl.
  rewrite enterSemaphore_slot by assumption.
  unfold callback_body.
  cbn [cb_pipeline cb_co cb_protocol cb_bodyFunc cb_bodyThis cb_bodyArgs
       cb_error cb_value].
  rewrite Hacq. cbn [bind]. cbv zeta.
  destruct (bindPlaceholder_fields co c w1) as (He & _).
  rewrite He, Hnat.
  destruct fuel; simpl; now destruct (native X id _ _ _).
Qed.

Lemma enter_runs_real_enter_witness :
  0 < ToNumber (_avail (sem Scenario.with_placeholder))
  /\ call Base.outside 1
       (VFunction (PlaceholderEnter 7 1 VNull (VString "body") VNull VNull))
       VNull [VNumber 5] Scenario.with_placeholder
     = Return VUndefined
         (Base.record (Base.Called 1 (VObject 1) [VNumber 5; VUndefined])
            (bindPlaceholder 1 2 Bound.real_acquired)).
Proof.
  assert (H : 0 < ToNumber (_avail (sem Scenario.with_placeholder)))
    by reflexivity.
  split; [exact H|].
  rewrite (enter_runs_real_enter Base.outside 0 7 1 VNull (VString "body")
             VNull VNull VNull [VNumber 5] Scenario.with_placeholder
             Bound.real_acquired 2 1 H eq_refl eq_refl).
  reflexivity.
Defined.

(** X11. With a slot free and an inner pipeline whose [acquireCoro]
    throws, the placeholder's [enter] throws the same to its caller, in
    the world the inner pipeline left: the slot it took is not given
    back. *)
Theorem enter_acquire_throws {E} (X : Outside E) (fuel : nat) (p : pipeline)
  (co : loc) (protocol bodyFunc bodyThis bodyArgs this error value : val)
  (w w1 : World E) (e : exn) :
  0 < ToNumber (_avail (sem w)) ->
  pipeline_acquireCoro X p protocol bodyFunc bodyThis bodyArgs
    (set_sem {| _size := _size (sem w);
                _avail := Some (ToNumber (_avail (sem w)) - 1);
                _queued := _queued (sem w) |} w)
    = Throw e w1 ->
  call X (S fuel)
    (VFunction (PlaceholderEnter p co protocol bodyFunc bodyThis bodyArgs))
    this [error; value] w
  = Throw e w1.
Proof.
  intros Hlt Hacq. simpl.
  rewrite enterSemaphore_slot by assumption.
  unfold callback_body.
  cbn [cb_pipeline cb_co cb_protocol cb_bodyFunc cb_bodyThis cb_bodyArgs
       cb_error cb_value].
  now rewrite Hacq.
Qed.

Lemma enter_acquire_throws_witness :
  0 < ToNumber (_avail (sem Scenario.with_placeholder))
  /\ call Faulty.throwing 1
       (VFunction (PlaceholderEnter 7 1 VNull (VString "body") VNull VNull))
       VNull [VNull; VUndefined] Scenario.with_placeholder
     = Throw (Error "out of fibers") Scenario.slot_taken
  /\ _avail (sem Scenario.slot_taken) = Some (1 - 1).
Proof.
  assert (H : 0 < ToNumber (_avail (sem Scenario.with_placeholder)))
    by reflexivity.
  split; [exact H|]. split; [|reflexivity].
  exact (enter_acquire_throws Faulty.throwing 0 7 1 VNull (VString "body")
           VNull VNull VNull VNull VUndefined Scenario.with_placeholder
           Scenario.slot_taken (Error "out of fibers") H eq_refl).
Defined.

(** X12. When the coroutine that the inner pipeline returns has no
    function for [enter], the callback throws a TypeError, after it has
    bound the placeholder to that coroutine and marked it. *)
Theorem real_enter_not_callable {E} (X : Outside E) (fuel : nat)
  (fn : callback) (w w1 : World E) (c : loc) :
  pipeline_acquireCoro X (cb_pipeline fn) (cb_protocol fn) (cb_bodyFunc fn)
    (cb_bodyThis fn) (cb_bodyArgs fn) w = Return c w1 ->
  (forall f, enter (coros w1 !!! c) <> VFunction f) ->
  exists m,
    invoke X fuel fn w
    = Throw (TypeError m) (bindPlaceholder (cb_co fn) c w1).
Proof.
  intros Hacq Hnf. unfold invoke, callback_body. rewrite Hacq.
  cbn [bind]. cbv zeta.
  destruct (bindPlaceholder_fields (cb_co fn) c w1) as (He & _).
  rewrite He.
  destruct (enter (coros w1 !!! c)) as [| | | | | |f];
    try (destruct fuel; simpl; eauto; fail).
  now elim (Hnf f).
Qed.

Lemma real_enter_not_callable_witness :
  exists c w1 m,
    pipeline_acquireCoro Faulty.bare 7 VNull (VString "body") VNull VNull
      Scenario.slot_taken = Return c w1
    /\ invoke Faulty.bare 1
         (Callback 7 1 VNull (VString "body") VNull VNull VNull VUndefined)
         Scenario.slot_taken
       = Throw (TypeError m) (bindPlaceholder 1 c w1)
    /\ inSemaphore (coros (bindPlaceholder 1 c w1) !!! c) = VBool true.
Proof.
  eexists _, _.
  destruct (real_enter_not_callable Faulty.bare 1
              (Callback 7 1 VNull (VString "body") VNull VNull VNull VUndefined)
              Scenario.slot_taken _ _ eq_refl) as [m Hm].
  { intros f. discriminate. }
  exists m. split; [reflexivity|]. split; [exact Hm | reflexivity].
Defined.

Lemma enter_without_slot_witness :
  ~ 0 < ToNumber (_avail (sem Bound.two_started))
  /\ call Base.outside 1
       (VFunction (PlaceholderEnter 7 5 VNull (VString "third") VNull VNull))
       VNull [VNull; VUndefined] Bound.two_started
     = Return VUndefined
         (set_sem
            {| _size := Some 1; _avail := Some (1 - 1);
               _queued :=
                 [Callback 7 3 VNull (VString "second") VNull VNull VNull
                    VUndefined;
                  Callback 7 5 VNull (VString "third") VNull VNull VNull
                    VUndefined] |}
            Bound.two_started).
Proof.
  assert (H : ~ 0 < ToNumber (_avail (sem Bound.two_started))).
  { intros H. discriminate H. }
  split; [exact H|].
  rewrite (enter_without_slot Base.outside 0 7 5 VNull (VString "third") VNull
             VNull VNull VNull VUndefined Bound.two_started H).
  reflexivity.
Defined.

(** ** [releaseCoro] and the two handles *)

(** X14. A placeholder is marked from its creation: released before its
    [enter] was ever called, with nothing waiting, it makes one more slot
    available than before the acquisition, though it never took one. *)
Theorem release_without_enter {E} (X : Outside E) (fuel : nat) (p : pipeline)
  (protocol bodyFunc bodyThis bodyArgs : val) (w : World E) :
  truthy (currentCoro X p w) = false ->
  _queued (sem w) = [] ->
  exists co w',
    acquireCoro X p protocol bodyFunc bodyThis bodyArgs w = Return co w'
    /\ sem w' = sem w
    /\ releaseCoro X fuel p protocol co w'
       = pipeline_releaseCoro X p protocol co
           (set_sem {| _size := _size (sem w);
                       _avail := Some (ToNumber (_avail (sem w)) + 1);
                       _queued := [] |}
              (update_coro co (set_inSemaphore (VBool false)) w')).
Proof.
  intros Htop Hq. unfold acquireCoro. rewrite Htop.
  eexists _, _. split; [reflexivity|]. split; [reflexivity|].
  unfold releaseCoro. cbn [coros]. rewrite lookup_total_insert_eq.
  cbn [inSemaphore truthy]. cbv zeta.
  now rewrite leaveSemaphore_free.
Qed.

Lemma release_without_enter_witness :
  truthy (currentCoro Base.outside 7 (Base.started 1)) = false
  /\ _queued (sem (Base.started 1)) = []
  /\ exists co w',
       acquireCoro Base.outside 7 VNull (VString "body") VNull VNull
         (Base.started 1) = Return co w'
       /\ Scenario.sem_of (releaseCoro Base.outside 1 7 VNull co w')
          = Some {| _size := Some 1; _avail := Some (1 + 1); _queued := [] |}.
Proof.
  split; [reflexivity|]. split; [reflexivity|].
  destruct (release_without_enter Base.outside 1 7 VNull (VString "body")
              VNull VNull (Base.started 1) eq_refl eq_refl)
    as (co & w' & Hacq & Hs & Hrel).
  exists co, w'. split; [exact Hacq|]. rewrite Hrel. reflexivity.
Defined.

(** X15. Once bound, the placeholder and the real coroutine both carry the
    mark, and clearing one leaves the other: released one after the other,
    with nothing waiting and an inner [releaseCoro] that leaves the
    semaphore and the other mark alone, the two handles of one call make
    two slots available. *)
Theorem release_both_handles {E} (X : Outside E) (fuel : nat) (p : pipeline)
  (protocol : val) (co c : loc) (w1 w4 : World E) (r : val) :
  co <> c ->
  truthy (inSemaphore (coros w1 !!! co)) = true ->
  _queued (sem w1) = [] ->
  let w2 := bindPlaceholder co c w1 in
  let w3 :=
    set_sem {| _size := _size (sem w1);
               _avail := Some (ToNumber (_avail (sem w1)) + 1);
               _queued := [] |}
      (update_coro co (set_inSemaphore (VBool false)) w2) in
  pipeline_releaseCoro X p protocol co w3 = Return r w4 ->
  sem w4 = sem w3 ->
  inSemaphore (coros w4 !!! c) = inSemaphore (coros w3 !!! c) ->
  bind (releaseCoro X fuel p protocol co w2)
    (fun _ w => releaseCoro X fuel p protocol c w)
  = pipeline_releaseCoro X p protocol c
      (set_sem {| _size := _size (sem w1);
                  _avail := Some (ToNumber (_avail (sem w1)) + 1 + 1);
                  _queued := [] |}
         (update_coro c (set_inSemaphore (VBool false)) w4)).
Proof.
  intros Hne Hmark Hq w2 w3 Hrel Hsem Hc.
  assert (Hco : inSemaphore (coros w2 !!! co) = inSemaphore (coros w1 !!! co)).
  { unfold w2. now rewrite bindPlaceholder_placeholder. }
  assert (Hc3 : inSemaphore (coros w3 !!! c) = VBool true).
  { unfold w3. cbn [set_sem coros].
    rewrite update_coro_ne by assumption.
    unfold w2. now rewrite bindPlaceholder_real. }
  unfold releaseCoro at 1. rewrite Hco, Hmark. cbv zeta.
  rewrite leaveSemaphore_free by exact Hq.
  cbn [bind]. fold w2. change (sem (update_coro co _ w2)) with (sem w1).
  fold w3. rewrite Hrel. cbn [bind].
  unfold releaseCoro. rewrite Hc, Hc3. cbn [truthy]. cbv zeta.
  rewrite leaveSemaphore_free by (cbn [update_coro sem]; now rewrite Hsem).
  cbn [update_coro sem]. now rewrite Hsem.
Qed.

Lemma release_both_handles_witness :
  let w2 := bindPlaceholder 1 2 Bound.real_acquired in
  (1 <> 2)%positive
  /\ truthy (inSemaphore (coros Bound.real_acquired !!! 1%positive)) = true
  /\ _queued (sem Bound.real_acquired) = []
  /\ Scenario.sem_of
       (bind (releaseCoro Base.outside 1 7 VNull 1 w2)
          (fun _ w => releaseCoro Base.outside 1 7 VNull 2 w))
     = Some {| _size := Some 1; _avail := Some (1 - 1 + 1 + 1);
               _queued := [] |}.
Proof.
  intros w2.
  assert (Hne : (1 <> 2)%positive) by discriminate.
  split; [exact Hne|]. split; [reflexivity|]. split; [reflexivity|].
  unfold w2.
  rewrite (release_both_handles Base.outside 1 7 VNull 1 2
             Bound.real_acquired Bound.first_released VUndefined Hne
             eq_refl eq_refl eq_refl eq_refl eq_refl).
  reflexivity.
Defined.

(** X16. Releasing a marked coroutine while a callback waits hands the
    slot over inside [releaseCoro]: [_avail] does not move, the waiting
    call has its real coroutine made, bound and entered -- its [enter]
    being a function of its own -- and only then is the released coroutine
    passed to the inner [releaseCoro]. No fuel is needed. *)
Theorem release_hands_slot_over {E} (X : Outside E) (fuel : nat)
  (p : pipeline) (protocol : val) (co : loc) (w w1 : World E)
  (fn : callback) (rest : list callback) (c : loc) (id : positive) :
  truthy (inSemaphore (coros w !!! co)) = true ->
  _queued (sem w) = fn :: rest ->
  pipeline_acquireCoro X (cb_pipeline fn) (cb_protocol fn) (cb_bodyFunc fn)
    (cb_bodyThis fn) (cb_bodyArgs fn)
    (set_sem {| _size := _size (sem w); _avail := _avail (sem w);
                _queued := rest |}
       (update_coro co (set_inSemaphore (VBool false)) w))
    = Return c w1 ->
  enter (coros w1 !!! c) = VFunction (Native id) ->
  releaseCoro X fuel p protocol co w
  = bind (native X id (VObject (cb_co fn)) [cb_error fn; cb_value fn]
            (bindPlaceholder (cb_co fn) c w1))
      (fun _ w3 => pipeline_releaseCoro X p protocol co w3).
Proof.
  intros Hmark Hq Hacq Hnat.
  unfold releaseCoro. rewrite Hmark. cbv zeta.
  rewrite (leaveSemaphore_handoff _ fn rest) by exact Hq.
  unfold invoke, callback_body.
  change (sem (update_coro co (set_inSemaphore (VBool false)) w))
    with (sem w).
  rewrite Hacq. cbn [bind]. cbv zeta.
  destruct (bindPlaceholder_fields (cb_co fn) c w1) as (He & _).
  rewrite He, Hnat.
  destruct fuel; simpl; now destruct (native X id _ _ _).
Qed.

Lemma release_hands_slot_over_witness :
  truthy (inSemaphore (coros Bound.two_started !!! 1%positive)) = true
  /\ Scenario.log_of (releaseCoro Base.outside 0 7 VNull 1 Bound.two_started)
     = [Base.Acquired 7 2 (VString "first");
        Base.Called 1 (VObject 1) [VNull; VUndefined];
        Base.Acquired 7 4 (VString "second");
        Base.Called 1 (VObject 3) [VNull; VUndefined];
        Base.Released 7 1]
  /\ Scenario.sem_of (releaseCoro Base.outside 0 7 VNull 1 Bound.two_started)
     = Some {| _size := Some 1; _avail := Some (1 - 1); _queued := [] |}.
Proof.
  split; [reflexivity|].
  rewrite (release_hands_slot_over Base.outside 0 7 VNull 1
             Bound.two_started Bound.second_acquired
             (Callback 7 3 VNull (VString "second") VNull VNull VNull
                VUndefined) [] 4 1 eq_refl eq_refl eq_refl eq_refl).
  split; reflexivity.
Defined.

(** ** The body of the test *)

Lemma foo_yields (count : Z) (i : nat) :
  (1 <= count <= 9)%Z ->
  (Z.of_nat i < count)%Z ->
  Iterable.yields (Iterable.foo count) !! i
  = Some (VNumber (inject_Z (111 * (1 + Z.of_nat i)))).
Proof.
  intros Hc Hi. unfold Iterable.foo.
  destruct ((count <? 1)%Z || (9 <? count)%Z) eqn:Hr.
  - apply orb_true_iff in Hr as [Hr | Hr]; lia.
  - simpl. rewrite list_lookup_fmap, lookup_seqZ_lt by lia. reflexivity.
Qed.

(** X17. The body [foo] of the test throws ['out of range'] before it
    yields anything when [count] is below 1 or above 9; otherwise it
    yields exactly [count] values, the multiples 111, 222, ... of 111 in
    increasing order, and returns ['done']. *)
Theorem foo_shape (count : Z) :
  ((count < 1 \/ 9 < count)%Z ->
     Iterable.foo count
     = {| Iterable.yields := [];
          Iterable.ending := Iterable.Raises (Error "out of range") |})
  /\ ((1 <= count <= 9)%Z ->
      length (Iterable.yields (Iterable.foo count)) = Z.to_nat count
      /\ (forall i : nat, (Z.of_nat i < count)%Z ->
            Iterable.yields (Iterable.foo count) !! i
            = Some (VNumber (inject_Z (111 * (1 + Z.of_nat i)))))
      /\ Iterable.ending (Iterable.foo count)
         = Iterable.Returns (VString "done")).
Proof.
  split.
  - intros Hr. unfold Iterable.foo.
    destruct ((count <? 1)%Z || (9 <? count)%Z) eqn:Hb; [reflexivity|].
    apply orb_false_iff in Hb as [H1 H2]. lia.
  - intros Hc. split; [|split].
    + unfold Iterable.foo.
      destruct ((count <? 1)%Z || (9 <? count)%Z) eqn:Hb.
      * apply orb_true_iff in Hb as [Hb | Hb]; lia.
      * simpl. now rewrite length_fmap, length_seqZ.
    + intros i Hi. now apply foo_yields.
    + unfold Iterable.foo.
      destruct ((count <? 1)%Z || (9 <? count)%Z) eqn:Hb; [|reflexivity].
      apply orb_true_iff in Hb as [Hb | Hb]; lia.
Qed.
